(** * Gemini Nanobanana MCP: request pipeline and image persistence

    A shallow embedding of the core of the server (the TypeScript entry
    module): [shouldRetry], [calculateDelay], [toInlineDataParts],
    [callGeminiGenerate], [generateDefaultFileName], [maybeSaveImage] and
    the four tool handlers.

    Conventions.
    - JavaScript exceptions are values of [JsError]; effectful functions
      live in the monad [Eff], which threads a [World] (file system, the
      trace of network calls and sleeps, the number of [Math.random]
      draws) and may throw.
    - The outside world is an [Env]: what the provider answers to the
      n-th request, what [Math.random] returns at its k-th call, and
      the clock. What the process finds around it is a [Config]: the
      environment variables, read once, the working directory, and the
      paths on which the operating system refuses to work.
    - Numbers that the code only uses as integers are [Z] or [nat];
      delays are IEEE 754 doubles, kept as the rationals they denote
      and rounded by [round64] after every operation.
    - A file holds bytes; [Buffer.from(s, 'base64')] and
      [buf.toString('base64')] are [Buffer.fromBase64] and
      [Buffer.toBase64].
    - [logger.*] calls only write to stderr and are left out, except
      that the [Math.random] draw made for a log entry is kept.
    - [node:path] is modelled in its POSIX flavour. *)

From Stdlib Require Import ZArith QArith Lqa String Ascii List Lia.
From stdpp Require Import gmap strings pretty list.

Close Scope Q_scope.
Open Scope string_scope.
Open Scope list_scope.

(** ** JavaScript values used by the module *)

Record JsError := mkError { name : string; message : string }.

(** [new Error(msg)] *)
Definition Error (msg : string) : JsError := mkError "Error" msg.

(** Truthiness of a string, and of an optional string ([undefined] is
    falsy, and so is the empty string). *)
Definition truthy (s : string) : bool := negb (String.eqb s "").

Definition truthyO (o : option string) : bool :=
  match o with
  | Some s => truthy s
  | None => false
  end.

(** [a ?? b] *)
Definition nullish {A} (o : option A) (d : A) : A :=
  match o with
  | Some a => a
  | None => d
  end.

(** [a || b] on optional strings *)
Definition orElse (a b : option string) : option string :=
  if truthyO a then a else b.

Definition lowerAscii (c : ascii) : ascii :=
  let n := nat_of_ascii c in
  if (65 <=? n)%nat && (n <=? 90)%nat then ascii_of_nat (n + 32) else c.

Fixpoint toLowerCase (s : string) : string :=
  match s with
  | EmptyString => EmptyString
  | String c r => String (lowerAscii c) (toLowerCase r)
  end.

(** [s.trim() === ''] : only white space *)
Definition isSpace (c : ascii) : bool :=
  let n := nat_of_ascii c in
  (n =? 32)%nat || ((9 <=? n)%nat && (n <=? 13)%nat).

Fixpoint trimIsEmpty (s : string) : bool :=
  match s with
  | EmptyString => true
  | String c r => isSpace c && trimIsEmpty r
  end.

Fixpoint replaceChars (p : ascii -> bool) (by_ : ascii) (s : string) : string :=
  match s with
  | EmptyString => EmptyString
  | String c r => String (if p c then by_ else c) (replaceChars p by_ r)
  end.

(** [s.split(sep)] for a one-character separator *)
Fixpoint splitOn (sep : ascii) (s : string) : list string :=
  match s with
  | EmptyString => [EmptyString]
  | String c r =>
      if Ascii.eqb c sep then EmptyString :: splitOn sep r
      else match splitOn sep r with
           | [] => [String c EmptyString]
           | h :: t => String c h :: t
           end
  end.

Fixpoint joinWith (sep : string) (l : list string) : string :=
  match l with
  | [] => ""
  | [x] => x
  | x :: r => x +:+ sep +:+ joinWith sep r
  end.

Fixpoint isSuffix (suf s : string) : bool :=
  String.eqb suf s ||
  match s with
  | EmptyString => false
  | String _ r => isSuffix suf r
  end.

Fixpoint contains (needle hay : string) : bool :=
  String.prefix needle hay ||
  match hay with
  | EmptyString => false
  | String _ r => contains needle r
  end.

(** The line feed of a JavaScript [\n] escape. *)
Definition nl : string := String "010" "".

(** The double quotation mark. *)
Definition quote : string := String "034" "".

(** ** Configuration constants *)

Definition MAX_RETRIES : nat := 3.
Definition BASE_DELAY : Z := 1000.
Definition REQUEST_TIMEOUT : Z := 60000.

(** [pathFault p] is the error code with which the operating system
    answers every call on [p], whatever is there (a name that is too
    long, a directory that may not be searched); [writeFault p] the one
    with which it refuses to create [p] or to open it for writing (a
    read-only file system, a missing write permission); [writeCut p]
    the error code and the number of bytes after which a write to [p]
    breaks off (a full disk). All are fixed for the length of a
    call. *)
Record Config := {
  GEMINI_API_KEY : string;      (* process.env.GEMINI_API_KEY ?? '' *)
  DEFAULT_SAVE_DIR : string;
  AUTO_SAVE : bool;
  HOME : option string;         (* process.env.HOME *)
  USERPROFILE : option string;  (* process.env.USERPROFILE *)
  cwd : string;                 (* process.cwd(), absolute *)
  pathFault : string -> option string;
  writeFault : string -> option string;
  writeCut : string -> option (string * nat)
}.

(** ** IEEE 754 binary64 numbers

    A finite double is the rational it denotes. [round64 x] is the
    double nearest to [x], ties to the even significand: what an
    arithmetic operation of JavaScript returns when its exact result
    is [x]. Overflow to [Infinity] (from [2^1024] on) is not
    modelled; the delays of the module stay below [10^4]. *)

(** [n / d] rounded to the nearest integer, ties to even
    ([0 <= n], [0 < d]). *)
Definition rneDiv (n d : Z) : Z :=
  let f := (n / d)%Z in
  let r := (n mod d)%Z in
  match (2 * r ?= d)%Z with
  | Lt => f
  | Gt => (f + 1)%Z
  | Eq => if Z.even f then f else (f + 1)%Z
  end.

(** The floor of the binary logarithm of [a / b] ([0 < a], [0 < b]). *)
Definition log2floor (a b : Z) : Z :=
  if (b <=? a)%Z then Z.log2 (a / b) else (- Z.log2_up ((b + a - 1) / a))%Z.

(** The exponent of the unit in the last place of [a / b]: 53
    significant bits, and no finer than the subnormal step [2^-1074]. *)
Definition ulpExp (a b : Z) : Z := Z.max (-1074) (log2floor a b - 52).

Definition roundPos (a : Z) (b : positive) : Q :=
  let e := ulpExp a (Z.pos b) in
  if (e <? 0)%Z
  then rneDiv (a * 2 ^ (- e)) (Z.pos b) # Z.to_pos (2 ^ (- e))
  else inject_Z (rneDiv a (Z.pos b * 2 ^ e) * 2 ^ e).

(** A number that is a double is returned as it is written. *)
Definition round64 (x : Q) : Q :=
  let y := match Qnum x with
           | Z0 => 0%Q
           | Z.pos _ => roundPos (Qnum x) (Qden x)
           | Z.neg _ => Qopp (roundPos (- Qnum x) (Qden x))
           end in
  if Qeq_bool y x then x else y.

(** ** Base64, as [Buffer] reads and writes it *)

Module Buffer.

Definition alphabet : string :=
  "ABCDEFGHIJKLMNOPQRSTUVWXYZabcdefghijklmnopqrstuvwxyz0123456789+/".

(** The character of a six-bit value. *)
Definition sextetChar (v : N) : ascii :=
  match String.get (N.to_nat v) alphabet with
  | Some c => c
  | None => "="%char
  end.

(** The six-bit value of a character; [+] and [/] may also be written
    [-] and [_]. *)
Definition unbase64 (c : ascii) : option N :=
  let n := N_of_ascii c in
  if (65 <=? n)%N && (n <=? 90)%N then Some (n - 65)%N
  else if (97 <=? n)%N && (n <=? 122)%N then Some (n - 71)%N
  else if (48 <=? n)%N && (n <=? 57)%N then Some (n + 4)%N
  else if (n =? 43)%N || (n =? 45)%N then Some 62%N
  else if (n =? 47)%N || (n =? 95)%N then Some 63%N
  else None.

(** The six-bit values a decoder reads: characters outside the
    alphabet are skipped and the first [=] ends the input. *)
Fixpoint sextetsOf (s : string) : list N :=
  match s with
  | EmptyString => []
  | String c r =>
      if Ascii.eqb c "=" then []
      else match unbase64 c with
           | Some v => v :: sextetsOf r
           | None => sextetsOf r
           end
  end.

(** Four values make three bytes; of a shorter rest only the whole
    bytes are kept. *)
Fixpoint bytesOfSextets (l : list N) : string :=
  match l with
  | a :: b :: c :: d :: r =>
      let n := (((a * 64 + b) * 64 + c) * 64 + d)%N in
      String (ascii_of_N (n / 65536))
        (String (ascii_of_N ((n / 256) mod 256))
           (String (ascii_of_N (n mod 256)) (bytesOfSextets r)))
  | [a; b; c] =>
      let n := ((a * 64 + b) * 64 + c)%N in
      String (ascii_of_N (n / 1024)) (String (ascii_of_N ((n / 4) mod 256)) "")
  | [a; b] => String (ascii_of_N ((a * 64 + b) / 16)) ""
  | _ => ""
  end.

(** [Buffer.from(s, 'base64')] *)
Definition fromBase64 (s : string) : string := bytesOfSextets (sextetsOf s).

(** [buf.toString('base64')] *)
Fixpoint toBase64 (bytes : string) : string :=
  match bytes with
  | String a (String b (String c r)) =>
      let n := ((N_of_ascii a * 256 + N_of_ascii b) * 256 + N_of_ascii c)%N in
      String (sextetChar (n / 262144))
        (String (sextetChar ((n / 4096) mod 64))
           (String (sextetChar ((n / 64) mod 64))
              (String (sextetChar (n mod 64)) (toBase64 r))))
  | String a (String b EmptyString) =>
      let n := ((N_of_ascii a * 256 + N_of_ascii b) * 4)%N in
      String (sextetChar (n / 4096))
        (String (sextetChar ((n / 64) mod 64))
           (String (sextetChar (n mod 64)) "="))
  | String a EmptyString =>
      let n := (N_of_ascii a * 16)%N in
      String (sextetChar (n / 64)) (String (sextetChar (n mod 64)) "==")
  | EmptyString => ""
  end.

End Buffer.

(** ** node:path, POSIX flavour *)

Module Path.

Definition segments (p : string) : list string := splitOn "/" p.

(** One step of normalisation: empty and [.] segments vanish, [..]
    removes the segment before it (and nothing at the root). *)
Definition pushSegment (acc : list string) (seg : string) : list string :=
  if String.eqb seg "" || String.eqb seg "." then acc
  else if String.eqb seg ".." then removelast acc
  else acc ++ [seg].

Definition normalizeSegments (segs : list string) : list string :=
  fold_left pushSegment segs [].

Definition fromSegments (segs : list string) : string :=
  "/" +:+ joinWith "/" segs.

Definition isAbsolute (p : string) : bool :=
  match p with
  | String "/" _ => true
  | _ => false
  end.

(** [resolve(p)] with the working directory made explicit. *)
Definition resolve (cwd p : string) : string :=
  fromSegments
    (normalizeSegments (segments (if isAbsolute p then p else cwd +:+ "/" +:+ p))).

(** The last component of a path, trailing separators ignored. *)
Definition lastComponent (p : string) : string :=
  List.last (List.filter truthy (segments p)) "".

Fixpoint lastDot (s : string) : option nat :=
  match s with
  | EmptyString => None
  | String c r =>
      match lastDot r with
      | Some i => Some (S i)
      | None => if Ascii.eqb c "." then Some 0%nat else None
      end
  end.

(** [extname(p)]: from the last dot of the last component to its end;
    empty when there is no dot, when the only dot is the first
    character, or when the component is [..]. *)
Definition extname (p : string) : string :=
  let c := lastComponent p in
  match lastDot c with
  | None => ""
  | Some 0%nat => ""
  | Some d => if String.eqb c ".." then "" else String.substring d (String.length c - d) c
  end.

(** [dirname(p)] for a resolved (absolute, normalised) path. *)
Definition dirname (p : string) : string :=
  fromSegments (removelast (List.filter truthy (segments p))).

(** [basename(p, ext)] for a resolved path: the last component, without
    [ext] when it ends with it and is not equal to it. *)
Definition basename (p ext : string) : string :=
  let b := lastComponent p in
  if truthy ext && negb (String.eqb b ext) && isSuffix ext b
  then String.substring 0 (String.length b - String.length ext) b
  else b.

(** [join(dir, file)] for a resolved directory and one file name
    without separators, the only way the module calls it. *)
Definition join (dir file : string) : string :=
  if String.eqb dir "/" then "/" +:+ file else dir +:+ "/" +:+ file.

End Path.


(** ** The world: file system, network and clock *)

Inductive Node :=
| FileBytes (bytes : string)
| Dir.

(** The file whose bytes are written in base64 as [base64]. *)
Definition File (base64 : string) : Node := FileBytes (Buffer.fromBase64 base64).

(** Request parts sent to the provider:
    [{text}] and [{inline_data: {mime_type, data}}]. *)
Inductive RequestPart :=
| TextPart (text : string)
| InlineDataPart (mime_type data : string).

(** The provider's JSON answer (type [GeminiGenerateResponse]); every
    field is optional. *)
Record InlineData := { data : option string; mimeType : option string }.
Record ResponsePart := { inlineData : option InlineData; text : option string }.
Record Content := { parts : option (list ResponsePart) }.
Record Candidate := { content : option Content }.
Record GeminiGenerateResponse := { candidates : option (list Candidate) }.

(** What [fetch] resolves to. [json] is the outcome of
    [fetchResponse.json()], which throws on a body that does not parse;
    [bodyText] is what [fetchResponse.text()] yields. *)
Record Response := {
  status : Z;
  bodyText : string;
  json : JsError + GeminiGenerateResponse
}.

(** [fetchResponse.ok] *)
Definition ok (r : Response) : bool := (200 <=? status r)%Z && (status r <=? 299)%Z.

(** A [fetch] either resolves to a response or rejects (network failure,
    or an [AbortError] when the abort controller fires at
    [REQUEST_TIMEOUT]). *)
Inductive FetchOutcome :=
| Resolved (r : Response)
| Rejected (e : JsError).

Definition AbortError : JsError := mkError "AbortError" "This operation was aborted".

Inductive Event :=
| Fetch (body : list RequestPart)   (* POST {contents: [{parts}]} *)
| Sleep (ms : Q).

Record Env := {
  provider : nat -> FetchOutcome;   (* the answer to the k-th request *)
  random : nat -> Q;                (* the k-th value of Math.random() *)
  isoNow : string                   (* new Date().toISOString() *)
}.

Record World := {
  fs : gmap string Node;
  trace : list Event;
  fetchCalls : nat;
  randomCalls : nat
}.

Definition isFetch (e : Event) : bool :=
  match e with Fetch _ => true | Sleep _ => false end.

Definition sleepOf (e : Event) : option Q :=
  match e with Fetch _ => None | Sleep ms => Some ms end.

Definition fetches (t : list Event) : list Event := List.filter isFetch t.
Definition sleeps (t : list Event) : list Q := omap sleepOf t.

(** ** The effect monad: state and exceptions *)

Definition Eff (A : Type) : Type := World -> (JsError + A) * World.

Definition ret {A} (a : A) : Eff A := fun w => (inr a, w).

Definition throw {A} (e : JsError) : Eff A := fun w => (inl e, w).

Definition bind {A B} (m : Eff A) (k : A -> Eff B) : Eff B :=
  fun w =>
    match m w with
    | (inr a, w') => k a w'
    | (inl e, w') => (inl e, w')
    end.

(** [try { m } catch (err) { h err }] *)
Definition tryCatch {A} (m : Eff A) (h : JsError -> Eff A) : Eff A :=
  fun w =>
    match m w with
    | (inr a, w') => (inr a, w')
    | (inl e, w') => h e w'
    end.

Notation "'let*' x := m 'in' k" := (bind m (fun x => k))
  (at level 10, x name, m at level 100, k at level 200).
Notation "'run' m 'in' k" := (bind m (fun _ => k))
  (at level 10, m at level 100, k at level 200).

(** State changes of the primitive operations. *)
Definition wEmit (e : Event) (w : World) : World :=
  {| fs := fs w; trace := trace w ++ [e];
     fetchCalls := fetchCalls w; randomCalls := randomCalls w |}.

Definition wFetch (body : list RequestPart) (w : World) : World :=
  {| fs := fs w; trace := trace w ++ [Fetch body];
     fetchCalls := S (fetchCalls w); randomCalls := randomCalls w |}.

Definition wDraws (n : nat) (w : World) : World :=
  {| fs := fs w; trace := trace w;
     fetchCalls := fetchCalls w; randomCalls := n + randomCalls w |}.

Definition wFs (m : gmap string Node) (w : World) : World :=
  {| fs := m; trace := trace w;
     fetchCalls := fetchCalls w; randomCalls := randomCalls w |}.

Definition sleep (ms : Q) : Eff unit := fun w => (inr tt, wEmit (Sleep ms) w).

Section Server.

Variable cfg : Config.
Variable env : Env.

(** [Math.random()] *)
Definition mathRandom : Eff Q :=
  fun w => (inr (random env (randomCalls w)), wDraws 1 w).

(** [fetch(endpoint, {method: 'POST', body, signal})] *)
Definition fetch (body : list RequestPart) : Eff Response :=
  fun w =>
    match provider env (fetchCalls w) with
    | Resolved r => (inr r, wFetch body w)
    | Rejected e => (inl e, wFetch body w)
    end.

Definition responseJson (r : Response) : Eff GeminiGenerateResponse :=
  match json r with
  | inr j => ret j
  | inl e => throw e
  end.

(** ** Reading files *)

(** The error of a failed system call, as [node:fs] words it. *)
Definition sysError (code syscall p : string) : JsError :=
  Error (code +:+ ", " +:+ syscall +:+ " '" +:+ p +:+ "'").

(** What is found at [p]; the root is always there. *)
Definition lookupNode (m : gmap string Node) (p : string) : option Node :=
  if String.eqb p "/" then Some Dir else m !! p.

Definition exists_ (m : gmap string Node) (p : string) : bool :=
  String.eqb p "/" || bool_decide (is_Some (m !! p)).

Fixpoint prefixes {A} (l : list A) : list (list A) :=
  match l with
  | [] => []
  | x :: r => [x] :: List.map (cons x) (prefixes r)
  end.

(** The directories on the way to [dir], [dir] included, top down:
    what [mkdir -p dir] has to find or make. *)
Definition dirChain (dir : string) : list string :=
  List.map Path.fromSegments (prefixes (List.filter truthy (Path.segments dir))).

Definition isFile (m : gmap string Node) (p : string) : bool :=
  match m !! p with
  | Some (FileBytes _) => true
  | _ => false
  end.

(** [p] runs through a regular file: one of the directories on the way
    to it is one. *)
Definition throughFile (m : gmap string Node) (p : string) : bool :=
  existsb (isFile m) (dirChain (Path.dirname p)).

(** The outcome of [readFile(full)] followed by
    [buf.toString('base64')]. *)
Definition readOutcome (m : gmap string Node) (full : string) : JsError + string :=
  match pathFault cfg full with
  | Some code => inl (sysError code "open" full)
  | None =>
      if throughFile m full then inl (sysError "ENOTDIR: not a directory" "open" full)
      else match lookupNode m full with
           | Some (FileBytes bytes) => inr (Buffer.toBase64 bytes)
           | Some Dir => inl (Error "EISDIR: illegal operation on a directory, read")
           | None => inl (sysError "ENOENT: no such file or directory" "open" full)
           end
  end.

(** [(await readFile(full)).toString('base64')] *)
Definition readFile (full : string) : Eff string :=
  fun w => (readOutcome (fs w) full, w).

(** ** Retry utilities *)

Definition shouldRetry (status : Z) : bool :=
  (status =? 429)%Z || ((500 <=? status)%Z && (status <? 600)%Z).

(** [BASE_DELAY * Math.pow(2, attempt) + r * 1000] in doubles: the
    product of an integer and a power of two, the product [r * 1000]
    and the sum are rounded each. *)
Definition delayOf (attempt : nat) (r : Q) : Q :=
  round64 (round64 (inject_Z (BASE_DELAY * 2 ^ Z.of_nat attempt)) + round64 (r * 1000))%Q.

Definition calculateDelay (attempt : nat) : Eff Q :=
  let* r := mathRandom in ret (delayOf attempt r).

(** ** Building the request *)

Record InlineImageInput := {
  dataBase64 : option string;
  path : option string;
  inputMimeType : option string
}.

(** The optional [mimeType] hint of the request type is never read and
    is left out. *)
Record GenerateRequest := {
  prompt : string;
  images : option (list InlineImageInput);
  saveToFilePath : option string
}.

Definition fileToBase64 (pathOrRelative : string) : Eff string :=
  let full := Path.resolve (cwd cfg) pathOrRelative in
  readFile full.

(** The body of the [for (const input of inputs)] loop, with [parts]
    the array built so far. *)
Fixpoint toInlineDataParts_loop (inputs : list InlineImageInput)
    (parts : list RequestPart) : Eff (list RequestPart) :=
  match inputs with
  | [] => ret parts
  | input :: rest =>
      let mime := nullish (inputMimeType input) "image/png" in
      let* dataBase64 :=
        (if negb (truthyO (dataBase64 input)) && truthyO (path input)
         then (let* d := fileToBase64 (nullish (path input) "") in ret (Some d))
         else ret (dataBase64 input)) in
      if negb (truthyO dataBase64)
      then throw (Error "InlineImageInput requires either dataBase64 or path")
      else toInlineDataParts_loop rest
             (parts ++ [InlineDataPart mime (nullish dataBase64 "")])
  end.

Definition toInlineDataParts (inputs : option (list InlineImageInput))
    : Eff (list RequestPart) :=
  match inputs with
  | None => ret []
  | Some [] => ret []
  | Some l => toInlineDataParts_loop l []
  end.

(** ** Decoding the answer *)

Record Image := { imageBase64 : string; imageMimeType : string }.

(** [json.candidates?.[0]?.content?.parts ?? []] *)
Definition firstParts (j : GeminiGenerateResponse) : list ResponsePart :=
  match candidates j with
  | Some (c :: _) =>
      match content c with
      | Some ct => nullish (parts ct) []
      | None => []
      end
  | _ => []
  end.

(** The [for (const part of first)] loop. *)
Fixpoint collectImages (first : list ResponsePart) (images : list Image) : list Image :=
  match first with
  | [] => images
  | part :: rest =>
      match inlineData part with
      | Some d =>
          if truthyO (data d)
          then collectImages rest
                 (images ++ [{| imageBase64 := nullish (data d) "";
                                imageMimeType := nullish (mimeType d) "image/png" |}])
          else collectImages rest images
      | None => collectImages rest images
      end
  end.

(** ** The request pipeline *)

Definition timeoutError : JsError :=
  Error ("Request timed out after " +:+ pretty (REQUEST_TIMEOUT / 1000)%Z +:+ " seconds").

Definition statusError (r : Response) (errorText : string) : JsError :=
  Error ("Gemini API error " +:+ pretty (status r) +:+ ": " +:+ errorText).

Definition noImageError : JsError := Error "No image data returned by Gemini API".

(** Local state of the loop besides [attempt]. *)
Definition LastError := option JsError.

(** Result of the [try] block: [Some images] when the function
    returns from inside it, [None] when control falls out of the block
    (with the new [lastError]). *)
Definition tryBlock (requestBody : list RequestPart) (attempt : nat)
    (lastError : LastError) : Eff (option (list Image) * LastError) :=
  let* fetchResponse := fetch requestBody in
  if ok fetchResponse then
    let* j := responseJson fetchResponse in
    let first := firstParts j in
    let images := collectImages first [] in
    if (length images =? 0)%nat then throw noImageError
    else ret (Some images, lastError)
  else
    let errorText := bodyText fetchResponse in
    let error := statusError fetchResponse errorText in
    if negb (shouldRetry (status fetchResponse)) || (attempt =? MAX_RETRIES)%nat
    then throw error
    else
      let* delay := calculateDelay attempt in   (* only logged *)
      ret (None, Some error).

Definition catchBlock (attempt : nat) (err : JsError)
    : Eff (option (list Image) * LastError) :=
  if String.eqb (name err) "AbortError" then throw timeoutError
  else if (attempt =? MAX_RETRIES)%nat then throw err
  else ret (None, Some err).

(** One iteration of [for (let attempt = 0; attempt <= MAX_RETRIES; attempt++)]. *)
Definition attemptBody (requestBody : list RequestPart) (attempt : nat)
    (lastError : LastError) : Eff (option (list Image) * LastError) :=
  let* r := tryCatch (tryBlock requestBody attempt lastError) (catchBlock attempt) in
  match r with
  | (Some images, le) => ret (Some images, le)
  | (None, le) =>
      run (if (attempt <? MAX_RETRIES)%nat
           then (let* d := calculateDelay attempt in sleep d)
           else ret tt) in
      ret (None, le)
  end.

(** The loop, with [remaining = MAX_RETRIES + 1 - attempt] iterations
    to go; at [0] the loop condition is false and the statement after
    the loop runs. *)
Fixpoint retryLoop (requestBody : list RequestPart) (remaining attempt : nat)
    (lastError : LastError) : Eff (list Image) :=
  match remaining with
  | 0%nat => throw (nullish lastError (Error "Max retries exceeded"))
  | S k =>
      let* r := attemptBody requestBody attempt lastError in
      match r with
      | (Some images, _) => ret images
      | (None, le) => retryLoop requestBody k (S attempt) le
      end
  end.

Definition credentialError : JsError :=
  Error "GEMINI_API_KEY environment variable is required but not set or empty".

Definition callGeminiGenerate (request : GenerateRequest) : Eff (list Image) :=
  if negb (truthy (GEMINI_API_KEY cfg)) || trimIsEmpty (GEMINI_API_KEY cfg)
  then throw credentialError
  else
    let textPart := TextPart (prompt request) in
    let* imageParts := toInlineDataParts (images request) in
    let parts := textPart :: imageParts in
    retryLoop parts (MAX_RETRIES + 1) 0 None.

(** ** File system operations *)

Definition setFs (m : gmap string Node) : Eff unit :=
  fun w => (inr tt, wFs m w).

(** [access(p)] resolves when the system call goes through and [p]
    exists (file or directory). *)
Definition accessible (m : gmap string Node) (p : string) : bool :=
  match pathFault cfg p with
  | Some _ => false
  | None => exists_ m p
  end.

(** [mkdir -p dir] along [chain]: a directory that is there is passed,
    one that is missing is made, a regular file in the way or a
    refusal of the operating system ends the walk. The directories
    made up to there stay. *)
Fixpoint mkdirChain (dir : string) (chain : list string) (m : gmap string Node)
    : option JsError * gmap string Node :=
  match chain with
  | [] => (None, m)
  | d :: rest =>
      match pathFault cfg d with
      | Some code => (Some (sysError code "mkdir" dir), m)
      | None =>
          match m !! d with
          | Some (FileBytes _) =>
              (Some (sysError (if rest is [] then "EEXIST: file already exists"
                               else "ENOTDIR: not a directory") "mkdir" dir), m)
          | Some Dir => mkdirChain dir rest m
          | None =>
              match writeFault cfg d with
              | Some code => (Some (sysError code "mkdir" dir), m)
              | None => mkdirChain dir rest (<[d := Dir]> m)
              end
          end
      end
  end.

(** [mkdir(dir, { recursive: true })] *)
Definition mkdir (dir : string) : Eff unit :=
  fun w =>
    match mkdirChain dir (dirChain dir) (fs w) with
    | (None, m) => (inr tt, wFs m w)
    | (Some e, m) => (inl e, wFs m w)
    end.

(** [writeFile(p, buffer)]: the file is made, or replaced, in a
    directory that is there. A write that breaks off leaves the bytes
    written so far. *)
Definition writeFile (p : string) (buffer : string) : Eff unit :=
  fun w =>
    match pathFault cfg p with
    | Some code => (inl (sysError code "open" p), w)
    | None =>
        if throughFile (fs w) p then (inl (sysError "ENOTDIR: not a directory" "open" p), w)
        else if negb (exists_ (fs w) (Path.dirname p))
        then (inl (sysError "ENOENT: no such file or directory" "open" p), w)
        else match lookupNode (fs w) p with
             | Some Dir =>
                 (inl (sysError "EISDIR: illegal operation on a directory" "open" p), w)
             | _ =>
                 match writeFault cfg p with
                 | Some code => (inl (sysError code "open" p), w)
                 | None =>
                     match writeCut cfg p with
                     | Some (code, n) =>
                         (inl (Error (code +:+ ", write")),
                          wFs (<[p := FileBytes (String.substring 0 n buffer)]> (fs w)) w)
                     | None => setFs (<[p := FileBytes buffer]> (fs w)) w
                     end
                 end
             end
    end.

(** ** Saving an image *)

Definition generateDefaultFileName (tool mimeType : string) : string :=
  let timestamp :=
    splitOn "T" (replaceChars (fun c => Ascii.eqb c ":" || Ascii.eqb c ".") "-" (isoNow env)) in
  let date := nth 0 timestamp "" in
  let time := nth 0 (splitOn "." (nth 1 timestamp "")) "" in
  let extension := if String.eqb mimeType "image/jpeg" then "jpg" else "png" in
  let home := nullish (orElse (orElse (HOME cfg) (USERPROFILE cfg)) (Some ".")) "." in
  let expandedDir :=
    match DEFAULT_SAVE_DIR cfg with
    | String "~" rest => home +:+ rest
    | d => d
    end in
  expandedDir +:+ "/" +:+ tool +:+ "-" +:+ date +:+ "-" +:+ time +:+ "." +:+ extension.

Definition mimeToExt : gmap string string :=
  list_to_map [("image/png", ".png"); ("image/jpeg", ".jpg"); ("image/jpg", ".jpg");
               ("image/webp", ".webp"); ("image/gif", ".gif")].

(** [mimeToExt] is an object literal, and a key it does not have is
    looked up on [Object.prototype]. Of the properties found there,
    [constructor] and [__proto__] are written in lower case and can be
    the result of [toLowerCase]; their values, a function and an
    object, are truthy and no strings. The text is what a template
    literal makes of the value. *)
Definition inheritedText (key : string) : option string :=
  if String.eqb key "constructor" then Some "function Object() { [native code] }"
  else if String.eqb key "__proto__" then Some "[object Object]"
  else None.

(** What [basename] says of the value when it is passed as [ext]. *)
Definition inheritedKind (key : string) : string :=
  if String.eqb key "constructor" then "function Object" else "an instance of Object".

(** [mimeToExt[mimeType.toLowerCase()] || '.png'], as the text it has
    in a template literal. *)
Definition detectedExt (mimeType : string) : string :=
  let key := toLowerCase mimeType in
  match mimeToExt !! key with
  | Some ext => if truthy ext then ext else ".png"
  | None => nullish (inheritedText key) ".png"
  end.

(** The value found for [mimeType] is a string. *)
Definition detectedIsString (mimeType : string) : bool :=
  let key := toLowerCase mimeType in
  match mimeToExt !! key with
  | Some _ => true
  | None => negb (bool_decide (is_Some (inheritedText key)))
  end.

Definition extensionFor (mimeType targetPath : string) : string :=
  let providedExt := Path.extname targetPath in
  if truthy providedExt then providedExt else detectedExt mimeType.

Definition basePathFor (mimeType targetPath : string) : string :=
  let providedExt := Path.extname targetPath in
  if truthy providedExt then targetPath
  else targetPath +:+ extensionFor mimeType targetPath.

(** [join(dir, `${name}_${counter}${extension}`)] *)
Definition suffixed (dir name extension : string) (counter : nat) : string :=
  Path.join dir (name +:+ "_" +:+ pretty counter +:+ extension).

(** The [while (true)] loop that looks for an unused path; [fuel]
    bounds the number of iterations. *)
Fixpoint findFreePath (fuel : nat) (m : gmap string Node) (dir name extension : string)
    (finalPath : string) (counter : nat) : option string :=
  match fuel with
  | 0%nat => None
  | S fuel' =>
      if accessible m finalPath
      then let counter := S counter in
           findFreePath fuel' m dir name extension (suffixed dir name extension counter) counter
      else Some finalPath
  end.

(** A map with [n] entries cannot hold [n + 1] suffixed names, so
    [size m + 2] iterations are enough and the [None] branch is never
    taken (see [findFreePath_total]). *)
Definition resolveCollision (dir name extension resolved : string) : Eff string :=
  fun w =>
    match findFreePath (size (fs w) + 2) (fs w) dir name extension resolved 0 with
    | Some p => (inr p, w)
    | None => (inl (Error "collision loop did not finish"), w)
    end.

(** [extension = providedExt || detectedExt] is a string: the hint has
    an extension, or the value found for the MIME type is one. *)
Definition extensionIsString (mimeType targetPath : string) : bool :=
  truthy (Path.extname targetPath) || detectedIsString mimeType.

(** [basename(resolved, extension)], which checks its arguments. *)
Definition basenameChecked (resolved mimeType targetPath : string) : Eff string :=
  if extensionIsString mimeType targetPath
  then ret (Path.basename resolved (extensionFor mimeType targetPath))
  else throw (mkError "TypeError"
                ("The " +:+ quote +:+ "ext" +:+ quote
                   +:+ " argument must be of type string. Received "
                   +:+ inheritedKind (toLowerCase mimeType))).

Definition maybeSaveImage (base64 mimeType : string) (targetPath : option string)
    : Eff (option string) :=
  if negb (truthyO targetPath) then ret None
  else
    let targetPath := nullish targetPath "" in
    tryCatch
      (let extension := extensionFor mimeType targetPath in
       let basePath := basePathFor mimeType targetPath in
       let resolved := Path.resolve (cwd cfg) basePath in
       let dir := Path.dirname resolved in
       let* name := basenameChecked resolved mimeType targetPath in
       run tryCatch (mkdir dir)
             (fun err => throw (Error ("Failed to create directory: " +:+ message err))) in
       let* finalPath := resolveCollision dir name extension resolved in
       let buffer := Buffer.fromBase64 base64 in
       run writeFile finalPath buffer in
       ret (Some finalPath))
      (fun error => throw (Error ("Failed to save image: " +:+ message error))).

(** ** The tool handlers *)

Inductive ContentItem :=
| TextItem (text : string)
| ImageItem (mimeType data : string).

(** [Math.round((base64.length * 0.75) / 1024)] *)
Definition sizeKB (base64 : string) : Z :=
  (3 * Z.of_nat (String.length base64) + 2048) / 4096.

(** The texts in which the four handlers differ. *)
Record Wording := {
  toolName : string;       (* first argument of generateDefaultFileName *)
  savedLead : string;
  unsavedLead : string;
  unsavedTail : string
}.

Definition sizeAndFormat (first : Image) : string :=
  nl +:+ "📁 Size: " +:+ pretty (sizeKB (imageBase64 first)) +:+ "KB" +:+ nl
    +:+ "📄 Format: " +:+ imageMimeType first.

(** What every handler does with [results] once the pipeline has
    returned. *)
Definition respond (wd : Wording) (saveToFilePath : option string)
    (results : list Image) : Eff (list ContentItem) :=
  match results with
  | [] =>
      throw (mkError "TypeError"
               ("Cannot read properties of undefined (reading '"
                  +:+ (if truthyO saveToFilePath || negb (AUTO_SAVE cfg)
                       then "imageBase64" else "mimeType") +:+ "')"))
  | first :: _ =>
      let finalSavePath :=
        orElse saveToFilePath
          (if AUTO_SAVE cfg
           then Some (generateDefaultFileName (toolName wd) (imageMimeType first))
           else None) in
      let* savedPath :=
        maybeSaveImage (imageBase64 first) (imageMimeType first) finalSavePath in
      let text :=
        if truthyO savedPath
        then savedLead wd +:+ nullish savedPath "" +:+ sizeAndFormat first
               +:+ (if negb (truthyO saveToFilePath)
                    then nl +:+ "🔄 Auto-saved (set AUTO_SAVE=false to disable)" else "")
        else unsavedLead wd +:+ sizeAndFormat first +:+ unsavedTail wd in
      ret (TextItem text ::
           (if negb (truthyO savedPath)
            then [ImageItem (imageMimeType first) (imageBase64 first)]
            else []))
  end.

Definition generateWording : Wording :=
  {| toolName := "generate";
     savedLead := "✅ Image generated and saved to: ";
     unsavedLead := "✅ Image generated successfully!";
     unsavedTail :=
       nl +:+ nl +:+ "💡 To save the image, add saveToFilePath parameter or enable AUTO_SAVE" |}.

Definition editWording : Wording :=
  {| toolName := "edit";
     savedLead := "✅ Image edited and saved to: ";
     unsavedLead := "✅ Image edited successfully!";
     unsavedTail := "" |}.

Definition composeWording : Wording :=
  {| toolName := "compose";
     savedLead := "✅ Images composed and saved to: ";
     unsavedLead := "✅ Images composed successfully!";
     unsavedTail := "" |}.

Definition styleWording : Wording :=
  {| toolName := "style";
     savedLead := "✅ Style transferred and saved to: ";
     unsavedLead := "✅ Style transfer completed!";
     unsavedTail := "" |}.

Definition generate_image (prompt : string) (saveToFilePath : option string)
    : Eff (list ContentItem) :=
  tryCatch
    (let* results :=
       callGeminiGenerate
         {| prompt := prompt; images := None; saveToFilePath := saveToFilePath |} in
     respond generateWording saveToFilePath results)
    (fun error => throw (Error ("Failed to generate image: " +:+ message error))).

Definition edit_image (prompt : string) (image : InlineImageInput)
    (saveToFilePath : option string) : Eff (list ContentItem) :=
  let* results :=
    callGeminiGenerate
      {| prompt := prompt; images := Some [image]; saveToFilePath := None |} in
  respond editWording saveToFilePath results.

Definition compose_images (prompt : string) (images : list InlineImageInput)
    (saveToFilePath : option string) : Eff (list ContentItem) :=
  let* results :=
    callGeminiGenerate
      {| prompt := prompt; images := Some images; saveToFilePath := None |} in
  respond composeWording saveToFilePath results.

Definition style_transfer (prompt : option string) (baseImage styleImage : InlineImageInput)
    (saveToFilePath : option string) : Eff (list ContentItem) :=
  let prompt :=
    nullish prompt
      "Apply the style of the second image to the first image while preserving the original content" in
  let* results :=
    callGeminiGenerate
      {| prompt := prompt; images := Some [baseImage; styleImage];
         saveToFilePath := None |} in
  respond styleWording saveToFilePath results.

End Server.

(** ** The retry loop as a state machine

    [attemptOutcome] is what one pass through the [try] block amounts
    to, seen from the [catch]: the images returned, or the exception
    raised inside the block. [Runs n w res w'] are the executions of
    the loop from [Attempting(n)] in world [w]. Both are related to the
    code by [attemptBody_eq] and [retryLoop_Runs]. *)

Definition isAbort (e : JsError) : bool := String.eqb (name e) "AbortError".

Definition attemptOutcome (o : FetchOutcome) : JsError + list Image :=
  match o with
  | Rejected e => inl e
  | Resolved r =>
      if ok r then
        match json r with
        | inl e => inl e
        | inr j =>
            let images := collectImages (firstParts j) [] in
            if (length images =? 0)%nat then inl noImageError else inr images
        end
      else inl (statusError r (bodyText r))
  end.

(** Number of [Math.random()] calls of an attempt before the one whose
    value is slept: the delay computed for the log entry of a
    retryable status. *)
Definition logDraws (o : FetchOutcome) (attempt : nat) : nat :=
  match o with
  | Resolved r =>
      if negb (ok r) && shouldRetry (status r) && negb (attempt =? MAX_RETRIES)%nat
      then 1%nat else 0%nat
  | Rejected _ => 0%nat
  end.

Section StateMachine.

Variable env : Env.
Variable body : list RequestPart.

(** The delay slept after a failed attempt, and the world in which the
    next attempt starts. *)
Definition sleptDelay (attempt : nat) (w : World) : Q :=
  delayOf attempt
    (random env (logDraws (provider env (fetchCalls w)) attempt + randomCalls w)).

Definition retryWorld (attempt : nat) (w : World) : World :=
  wEmit (Sleep (sleptDelay attempt w))
    (wDraws (S (logDraws (provider env (fetchCalls w)) attempt)) (wFetch body w)).

Inductive Runs : nat -> World -> JsError + list Image -> World -> Prop :=
| Run_succeeded n w images :
    attemptOutcome (provider env (fetchCalls w)) = inr images ->
    Runs n w (inr images) (wFetch body w)
| Run_timed_out n w e :
    attemptOutcome (provider env (fetchCalls w)) = inl e ->
    isAbort e = true ->
    Runs n w (inl timeoutError) (wFetch body w)
| Run_failed w e :
    attemptOutcome (provider env (fetchCalls w)) = inl e ->
    isAbort e = false ->
    Runs MAX_RETRIES w (inl e) (wFetch body w)
| Run_retry n w e res w' :
    (n < MAX_RETRIES)%nat ->
    attemptOutcome (provider env (fetchCalls w)) = inl e ->
    isAbort e = false ->
    Runs (S n) (retryWorld n w) res w' ->
    Runs n w res w'.

End StateMachine.

(** Attempt [n] of a call that started in [w] and ended in [w'] was
    made: its request went out. *)
Definition attemptMade (w w' : World) (n : nat) : Prop :=
  (fetchCalls w + n < fetchCalls w')%nat.

(** Attempt [n] was the last one. *)
Definition lastAttempt (w w' : World) (n : nat) : Prop :=
  fetchCalls w' = S (fetchCalls w + n).

(** The answer to attempt [n] of a call that started in [w]. *)
Definition answerTo (env : Env) (w : World) (n : nat) : FetchOutcome :=
  provider env (fetchCalls w + n).

(** The attempt ran into the wall-clock timeout: the abort controller
    fired and [fetch] rejected with an [AbortError]. *)
Definition timedOut (o : FetchOutcome) : Prop :=
  exists e, o = Rejected e /\ isAbort e = true.

(** Attempt [i] of a run that started at [Attempting(n)] failed and
    was followed by the next attempt. *)
Definition retried (env : Env) (w w' : World) (n i : nat) : Prop :=
  attemptMade w w' (S i) /\ (n + i < MAX_RETRIES)%nat /\
  exists e, attemptOutcome (answerTo env w i) = inl e /\ isAbort e = false.

(** Attempt [i] ended the run with result [res]. *)
Definition concluded (env : Env) (w w' : World) (n i : nat)
    (res : JsError + list Image) : Prop :=
  lastAttempt w w' i /\
  match attemptOutcome (answerTo env w i) with
  | inr images => res = inr images
  | inl e =>
      if isAbort e then res = inl timeoutError
      else (n + i)%nat = MAX_RETRIES /\ res = inl e
  end.

(** The events of a run that slept [ds] between its requests. *)
Definition traceOf (body : list RequestPart) (ds : list Q) : list Event :=
  flat_map (fun d => [Fetch body; Sleep d]) ds ++ [Fetch body].

(** ** Resolving input images, as a specification *)

(** The bytes [toInlineDataParts] finds for an input, if any. *)
Definition resolvedData (cfg : Config) (m : gmap string Node) (input : InlineImageInput)
    : option string :=
  if truthyO (dataBase64 input) then dataBase64 input
  else if truthyO (path input) then
    match readOutcome cfg m (Path.resolve (cwd cfg) (nullish (path input) "")) with
    | inr c => if truthy c then Some c else None
    | inl _ => None
    end
  else None.

Definition inlinePartOf (cfg : Config) (m : gmap string Node) (input : InlineImageInput)
    : RequestPart :=
  InlineDataPart (nullish (inputMimeType input) "image/png")
                 (nullish (resolvedData cfg m input) "").

Definition credentialMissing (cfg : Config) : Prop :=
  GEMINI_API_KEY cfg = "" \/ trimIsEmpty (GEMINI_API_KEY cfg) = true.

(** ** Candidate paths of a save *)

(** The paths the collision loop tries, in order. *)
Definition candidate (dir name extension resolved : string) (k : nat) : string :=
  match k with
  | 0%nat => resolved
  | S _ => suffixed dir name extension k
  end.

(** ** Statements of the specification that the code does not meet

    Each is a sentence of the specification, formalised as it is
    written, for one call of [callGeminiGenerate] that starts in [w]. *)

(** "A timeout on attempt n < MAX_RETRIES is followed by attempt n+1." *)
Definition timeout_retried_claim (cfg : Config) (env : Env)
    (request : GenerateRequest) (w : World) : Prop :=
  let w' := (callGeminiGenerate cfg env request w).2 in
  forall n, (n < MAX_RETRIES)%nat -> attemptMade w w' n ->
            timedOut (answerTo env w n) -> attemptMade w w' (S n).

(** "After an error status s on attempt n, attempt n+1 is made if and
    only if (s = 429 or 500 <= s < 599) and n < MAX_RETRIES." *)
Definition retry_rule_claim (cfg : Config) (env : Env)
    (request : GenerateRequest) (w : World) : Prop :=
  let w' := (callGeminiGenerate cfg env request w).2 in
  forall n r, attemptMade w w' n -> answerTo env w n = Resolved r -> ok r = false ->
    (attemptMade w w' (S n) <->
     (status r = 429 \/ 500 <= status r < 599)%Z /\ (n < MAX_RETRIES)%nat).

(** "A terminal error other than a timeout contains the upstream status
    code and a truncated form of the response body." *)
Definition error_content_claim (cfg : Config) (env : Env)
    (request : GenerateRequest) (w : World) : Prop :=
  let res := callGeminiGenerate cfg env request w in
  forall e n r, res.1 = inl e -> lastAttempt w res.2 n -> answerTo env w n = Resolved r ->
    contains (pretty (status r)) (message e) = true /\
    exists limit, (0 < limit)%nat /\
      contains (String.substring 0 limit (bodyText r)) (message e) = true.

(** "For every retried attempt n the delay d before attempt n+1
    satisfies 1000 * 2^n <= d < 1000 * 2^n + 1000", the jitter being
    drawn from [0, 1000): [Math.random] returns values in [0, 1). *)
Definition delay_bound_claim (cfg : Config) (env : Env)
    (request : GenerateRequest) (w : World) : Prop :=
  let res := callGeminiGenerate cfg env request w in
  (forall k, (0 <= random env k)%Q /\ (random env k < 1)%Q) ->
  forall t n d, trace res.2 = trace w ++ t -> sleeps t !! n = Some d ->
    (inject_Z (1000 * 2 ^ Z.of_nat n) <= d)%Q /\
    (d < inject_Z (1000 * 2 ^ Z.of_nat n) + 1000)%Q.

(** The paths tried from [finalPath] at counter [c] on. *)
Definition candidateFrom (dir name extension finalPath : string) (c k : nat) : string :=
  match k with
  | 0%nat => finalPath
  | S _ => suffixed dir name extension (c + k)
  end.

(** ** Sample worlds *)

Module Sample.

Definition cfg : Config :=
  {| GEMINI_API_KEY := "test-key";
     DEFAULT_SAVE_DIR := "~/Downloads/gemini-images";
     AUTO_SAVE := true;
     HOME := Some "/home/u";
     USERPROFILE := None;
     cwd := "/srv/app";
     pathFault := fun _ => None;
     writeFault := fun _ => None;
     writeCut := fun _ => None |}.

Definition world : World :=
  {| fs := ∅; trace := []; fetchCalls := 0; randomCalls := 0 |}.

Definition request : GenerateRequest :=
  {| prompt := "a cat"; images := None; saveToFilePath := None |}.

Definition onePart : ResponsePart :=
  {| inlineData := Some {| data := Some "QUJD"; mimeType := Some "image/jpeg" |};
     text := None |}.

Definition answer (st : Z) (txt : string) (ps : list ResponsePart) : FetchOutcome :=
  Resolved {| status := st; bodyText := txt;
              json := inr {| candidates := Some [{| content := Some {| parts := Some ps |} |}] |} |}.

Definition envOf (script : nat -> FetchOutcome) : Env :=
  {| provider := script; random := fun _ => (1 # 2)%Q;
     isoNow := "2025-01-01T12:00:00.000Z" |}.

(** 200 without image parts, then 200 with one image. *)
Definition emptyThenImage : Env :=
  envOf (fun k => match k with
                  | 0%nat => answer 200 "{}" []
                  | _ => answer 200 "{}" [onePart]
                  end).

(** 200 without image parts on every attempt. *)
Definition alwaysEmpty : Env := envOf (fun _ => answer 200 "{}" []).

(** The first request times out. *)
Definition timesOut : Env := envOf (fun _ => Rejected AbortError).

(** 599 first, then an image. *)
Definition status599 : Env :=
  envOf (fun k => match k with
                  | 0%nat => answer 599 "upstream" []
                  | _ => answer 200 "{}" [onePart]
                  end).

(** 503 on every attempt. *)
Definition alwaysBusy : Env := envOf (fun _ => answer 503 "busy" []).

(** An image on the first attempt. *)
Definition immediate : Env := envOf (fun _ => answer 200 "{}" [onePart; onePart]).

(** A world with one image file in the working directory. *)
Definition worldWithFile : World :=
  {| fs := {[ "/srv/app/in.png" := File "SU1H" ]}; trace := [];
     fetchCalls := 0; randomCalls := 0 |}.

Definition editRequest : GenerateRequest :=
  {| prompt := "make it blue";
     images := Some [ {| dataBase64 := Some "AAAA"; path := None;
                         inputMimeType := Some "image/jpeg" |};
                      {| dataBase64 := None; path := Some "in.png";
                         inputMimeType := None |} ];
     saveToFilePath := None |}.

(** The second input names a file that is not there. *)
Definition brokenRequest : GenerateRequest :=
  {| prompt := "make it blue";
     images := Some [ {| dataBase64 := Some "AAAA"; path := None;
                         inputMimeType := None |};
                      {| dataBase64 := None; path := Some "missing.png";
                         inputMimeType := None |} ];
     saveToFilePath := None |}.

End Sample.

(** ** Further parts of the module *)

(** What the decoding loop makes of one part of the answer: an image
    when the part carries non-empty inline data, nothing otherwise. *)
Definition decodePart (part : ResponsePart) : option Image :=
  match inlineData part with
  | Some d =>
      if truthyO (data d)
      then Some {| imageBase64 := nullish (data d) "";
                   imageMimeType := nullish (mimeType d) "image/png" |}
      else None
  | None => None
  end.

(** Total of a list of delays. *)
Definition totalDelay (ds : list Q) : Q := foldr Qplus 0%Q ds.

(** *** Input validation *)

Definition ALLOWED_MIME_TYPES : list string :=
  ["image/png"; "image/jpeg"; "image/jpg"; "image/webp"; "image/gif"].

Definition MAX_IMAGE_SIZE : Z := 20 * 1024 * 1024.

(** [Math.ceil((MAX_IMAGE_SIZE * 4) / 3)] *)
Definition MAX_BASE64_SIZE : Z := (MAX_IMAGE_SIZE * 4 + 2) / 3.

Definition validateMimeType (mimeType : string) : bool :=
  existsb (String.eqb (toLowerCase mimeType)) ALLOWED_MIME_TYPES.

Definition validateBase64Size (base64 : string) : bool :=
  (Z.of_nat (String.length base64) <=? MAX_BASE64_SIZE)%Z.

(** [resolve(path).startsWith(resolve('.')) && !path.includes('..')
    && !path.includes('~')] *)
Definition validateFilePath (cfg : Config) (path : string) : bool :=
  let normalizedPath := Path.resolve (cwd cfg) path in
  let basePath := Path.resolve (cwd cfg) "." in
  String.prefix basePath normalizedPath
  && negb (contains ".." path) && negb (contains "~" path).

(** Length of the padded base64 text of [n] bytes. *)
Definition base64Length (n : Z) : Z := 4 * ((n + 2) / 3).

(** *** The HTTP front of the server *)

Definition MAX_BODY_SIZE : Z := 10 * 1024 * 1024.

Record HttpRequest := {
  url : option string;       (* req.url *)
  method : string;           (* req.method *)
  incoming : list string     (* the chunks the request stream yields *)
}.

(** What becomes of a request: the status written by the server itself,
    or the call of [transport.handleRequest] with the parsed body
    ([None] is [undefined]), which answers the request unless it
    throws. *)
Inductive HttpOutcome (J : Type) :=
| NotFound                              (* 404 *)
| PayloadTooLarge                       (* 413 *)
| InvalidJson                           (* 400 *)
| Handled (parsedBody : option J)
| InternalError (parsedBody : option J) (* transport threw: 500 *).

Arguments NotFound {J}.
Arguments PayloadTooLarge {J}.
Arguments InvalidJson {J}.
Arguments Handled {J} _.
Arguments InternalError {J} _.

(** The [for await (const chunk of req)] loop: [None] when the running
    total passes [MAX_BODY_SIZE], the chunks gathered otherwise. *)
Fixpoint readChunks (stream : list string) (chunks : list string) (totalSize : Z)
    : option (list string) :=
  match stream with
  | [] => Some chunks
  | chunk :: rest =>
      let totalSize := (totalSize + Z.of_nat (String.length chunk))%Z in
      if (totalSize >? MAX_BODY_SIZE)%Z then None
      else readChunks rest (chunks ++ [chunk]) totalSize
  end.

(** [Buffer.concat(chunks).toString('utf8')] *)
Definition concatChunks (chunks : list string) : string :=
  foldr String.append "" chunks.

Definition totalSizeOf (chunks : list string) : Z :=
  foldr (fun chunk n => (Z.of_nat (String.length chunk) + n)%Z) 0%Z chunks.

Section Http.

Variable J : Type.
Variable jsonParse : string -> option J.              (* JSON.parse, [None] when it throws *)
Variable transportThrows : option J -> bool.          (* transport.handleRequest *)
Variable path : string.                               (* MCP_HTTP_PATH ?? '/mcp' *)

Definition forward (parsedBody : option J) : HttpOutcome J :=
  if transportThrows parsedBody then InternalError parsedBody else Handled parsedBody.

(** The request listener of [http.createServer]. *)
Definition handleHttp (req : HttpRequest) : HttpOutcome J :=
  if negb (match url req with
           | Some u => String.prefix path u
           | None => false
           end)
  then NotFound
  else if String.eqb (method req) "POST" then
    match readChunks (incoming req) [] 0 with
    | None => PayloadTooLarge
    | Some chunks =>
        let raw := concatChunks chunks in
        if truthy raw then
          match jsonParse raw with
          | Some parsed => forward (Some parsed)
          | None => InvalidJson
          end
        else forward None
    end
  else forward None.

End Http.

(** ** Further sample worlds *)

Module Scenario.

(** 503 three times, then an image. *)
Definition busyThenImage : Env :=
  Sample.envOf (fun k => match k with
                         | 0%nat | 1%nat | 2%nat => Sample.answer 503 "busy" []
                         | _ => Sample.answer 200 "{}" [Sample.onePart]
                         end).

(** 503 on every attempt, and [Math.random] at the largest double
    below 1, [1 - 2^-53]. *)
Definition jitterAtTop : Env :=
  {| provider := fun _ => Sample.answer 503 "busy" [];
     random := fun _ => (9007199254740991 # 9007199254740992)%Q;
     isoNow := "2025-01-01T12:00:00.000Z" |}.

(** A file system that refuses names of more than 255 bytes. *)
Definition nameTooLong (p : string) : option string :=
  if existsb (fun s => (255 <? String.length s)%nat) (Path.segments p)
  then Some "ENAMETOOLONG: name too long"
  else None.

Definition shortNames : Config :=
  {| GEMINI_API_KEY := "test-key";
     DEFAULT_SAVE_DIR := "~/Downloads/gemini-images";
     AUTO_SAVE := true;
     HOME := Some "/home/u";
     USERPROFILE := None;
     cwd := "/srv/app";
     pathFault := nameTooLong;
     writeFault := fun _ => None;
     writeCut := fun _ => None |}.

(** A name of 256 letters, in the directory [out]. *)
Definition longTarget : string :=
  "out/" +:+ String.concat "" (repeat "aaaaaaaaaaaaaaaa" 16).

(** Auto-save switched off. *)
Definition noAutoSave : Config :=
  {| GEMINI_API_KEY := "test-key";
     DEFAULT_SAVE_DIR := "~/Downloads/gemini-images";
     AUTO_SAVE := false;
     HOME := Some "/home/u";
     USERPROFILE := None;
     cwd := "/srv/app";
     pathFault := fun _ => None;
     writeFault := fun _ => None;
     writeCut := fun _ => None |}.


End Scenario.

(** ** Proof automation *)

(** Linear arithmetic with divisions and remainders by constants. *)
Ltac div_lia := zify; Z.to_euclidean_division_equations; lia.

(** * Properties *)

(** ** Rounding to a double *)

(** Rounding to the nearest integer stays between the integers around
    the quotient. *)
Lemma rneDiv_between n d lo hi :
  (0 < d)%Z -> (lo * d <= n)%Z -> (n <= hi * d)%Z ->
  (lo <= rneDiv n d <= hi)%Z.
Proof.
  intros Hd Hlo Hhi. unfold rneDiv.
  pose proof (Z.div_mod n d ltac:(lia)) as Hdm.
  pose proof (Z.mod_pos_bound n d Hd) as Hr.
  assert (Hl : (lo <= n / d)%Z) by (apply Z.div_le_lower_bound; lia).
  assert (Hu : (n / d <= hi)%Z) by (apply Z.div_le_upper_bound; lia).
  assert (Hup : (0 < n mod d -> n / d + 1 <= hi)%Z) by nia.
  destruct (Z.compare_spec (2 * (n mod d)) d) as [He|Hlt|Hgt].
  - destruct (Z.even (n / d)); lia.
  - lia.
  - lia.
Qed.

Lemma ulpExp_small a b hi :
  (0 < a)%Z -> (0 < b)%Z -> (a <= hi * b)%Z -> (hi < 2 ^ 53)%Z ->
  (ulpExp a b <= 0)%Z.
Proof.
  intros Ha Hb Hhi H53. unfold ulpExp, log2floor.
  destruct (Z.leb_spec b a) as [Hba|Hab].
  - assert (Hq : (0 < a / b)%Z) by (apply Z.div_str_pos; lia).
    assert (Hle : (a / b <= hi)%Z) by (apply Z.div_le_upper_bound; lia).
    assert (Hlog : (Z.log2 (a / b) < 53)%Z) by (apply Z.log2_lt_pow2; lia).
    lia.
  - pose proof (Z.log2_up_nonneg ((b + a - 1) / a)). lia.
Qed.

(** A number between two integers below [2^53] is rounded to a double
    between them: integers of that size are doubles, and rounding is
    monotone. *)
Lemma round64_between lo hi x :
  (0 <= lo)%Z -> (hi < 2 ^ 53)%Z ->
  (inject_Z lo <= x)%Q -> (x <= inject_Z hi)%Q ->
  (inject_Z lo <= round64 x)%Q /\ (round64 x <= inject_Z hi)%Q.
Proof.
  intros H0 H53 Hlo Hhi. unfold round64.
  destruct (Qeq_bool _ x); [by split|].
  destruct x as [a b]. unfold Qle in Hlo, Hhi. cbn in Hlo, Hhi. cbn [Qnum Qden].
  destruct a as [|a|a]; [| |lia].
  - unfold Qle; cbn. lia.
  - unfold roundPos.
    pose proof (ulpExp_small (Z.pos a) (Z.pos b) hi ltac:(lia) ltac:(lia) ltac:(lia) H53) as He.
    destruct (Z.ltb_spec (ulpExp (Z.pos a) (Z.pos b)) 0) as [Hneg|Hnn].
    + set (k := (- ulpExp (Z.pos a) (Z.pos b))%Z).
      assert (Hk : (0 < 2 ^ k)%Z) by (apply Z.pow_pos_nonneg; lia).
      destruct (rneDiv_between (Z.pos a * 2 ^ k) (Z.pos b) (lo * 2 ^ k) (hi * 2 ^ k))
        as [Hl Hu]; [lia|nia|nia|].
      unfold Qle; cbn [Qnum Qden inject_Z]. rewrite Z2Pos.id by exact Hk. lia.
    + assert (ulpExp (Z.pos a) (Z.pos b) = 0)%Z as -> by lia.
      change (2 ^ 0)%Z with 1%Z. rewrite !Z.mul_1_r.
      destruct (rneDiv_between (Z.pos a) (Z.pos b) lo hi) as [Hl Hu]; [lia|lia|lia|].
      unfold Qle; cbn [Qnum Qden inject_Z]. lia.
Qed.

(** Rounding to the nearest integer is off by half a unit at most. *)
Lemma rneDiv_error n d :
  (0 < d)%Z ->
  (- d <= 2 * (rneDiv n d * d - n) <= d)%Z.
Proof.
  intros Hd. unfold rneDiv.
  pose proof (Z.div_mod n d ltac:(lia)) as Hdm.
  pose proof (Z.mod_pos_bound n d Hd) as Hr.
  destruct (Z.compare_spec (2 * (n mod d)) d) as [He|Hlt|Hgt].
  - destruct (Z.even (n / d)); nia.
  - nia.
  - nia.
Qed.

Lemma ulpExp_below a b hi t :
  (0 < a)%Z -> (0 < b)%Z -> (a <= hi * b)%Z ->
  (0 <= t <= 52)%Z -> (hi < 2 ^ (53 - t))%Z ->
  (ulpExp a b <= - t)%Z.
Proof.
  intros Ha Hb Hhi Ht H53. unfold ulpExp, log2floor.
  destruct (Z.leb_spec b a) as [Hba|Hab].
  - assert (Hq : (0 < a / b)%Z) by (apply Z.div_str_pos; lia).
    assert (Hle : (a / b <= hi)%Z) by (apply Z.div_le_upper_bound; lia).
    assert (Hlog : (Z.log2 (a / b) < 53 - t)%Z) by (apply Z.log2_lt_pow2; lia).
    lia.
  - pose proof (Z.log2_up_nonneg ((b + a - 1) / a)). lia.
Qed.

(** The rounding error of a number below [2^(53-t)] is at most
    [2^-(t+1)], half a unit in the last place. *)
Lemma round64_error hi t x :
  (1 <= t <= 52)%Z -> (hi < 2 ^ (53 - t))%Z ->
  (0 <= x)%Q -> (x <= inject_Z hi)%Q ->
  (- (1 # Z.to_pos (2 ^ (t + 1))) <= round64 x - x)%Q /\
  (round64 x - x <= 1 # Z.to_pos (2 ^ (t + 1)))%Q.
Proof.
  intros Ht H53 H0 Hhi. unfold round64.
  destruct (Qeq_bool _ x); [split; [|]; ring_simplify (x - x)%Q; done|].
  destruct x as [a b]. unfold Qle in H0, Hhi. cbn in H0, Hhi. cbn [Qnum Qden].
  destruct a as [|a|a]; [| |lia].
  - split; vm_compute; discriminate.
  - unfold roundPos.
    pose proof (ulpExp_below (Z.pos a) (Z.pos b) hi t ltac:(lia) ltac:(lia) ltac:(lia)
                  ltac:(lia) H53) as He.
    destruct (Z.ltb_spec (ulpExp (Z.pos a) (Z.pos b)) 0) as [Hneg|Hnn]; [|lia].
    set (k := (- ulpExp (Z.pos a) (Z.pos b))%Z) in *.
    assert (Hk : (0 < 2 ^ k)%Z) by (apply Z.pow_pos_nonneg; lia).
    assert (Htk : (2 ^ (t + 1) <= 2 * 2 ^ k)%Z).
    { rewrite Z.pow_add_r by lia. change (2 ^ 1)%Z with 2%Z.
      assert (2 ^ t <= 2 ^ k)%Z by (apply Z.pow_le_mono_r; lia). lia. }
    assert (Ht1 : (0 < 2 ^ (t + 1))%Z) by (apply Z.pow_pos_nonneg; lia).
    pose proof (rneDiv_error (Z.pos a * 2 ^ k) (Z.pos b) ltac:(lia)) as Herr.
    set (m := rneDiv (Z.pos a * 2 ^ k) (Z.pos b)) in *.
    unfold Qle, Qminus, Qplus, Qopp. cbn [Qnum Qden].
    rewrite !Pos2Z.inj_mul, !Z2Pos.id by lia.
    split; nia.
Qed.

(** ** The loop body and the loop against the state machine *)

Section PipelineFacts.

Context (cfg : Config) (env : Env).

Lemma statusError_not_abort r t : isAbort (statusError r t) = false.
Proof. reflexivity. Qed.

Lemma noImageError_not_abort : isAbort noImageError = false.
Proof. reflexivity. Qed.

(** One iteration of the loop, in closed form. *)
Lemma attemptBody_eq body attempt le w :
  (attempt <= MAX_RETRIES)%nat ->
  attemptBody env body attempt le w =
  match attemptOutcome (provider env (fetchCalls w)) with
  | inr images => (inr (Some images, le), wFetch body w)
  | inl e =>
      if isAbort e then (inl timeoutError, wFetch body w)
      else if (attempt =? MAX_RETRIES)%nat then (inl e, wFetch body w)
      else (inr (None, Some e), retryWorld env body attempt w)
  end.
Proof.
  intros Hle.
  assert (Hlt : (attempt =? MAX_RETRIES)%nat = false ->
                (attempt <? MAX_RETRIES)%nat = true).
  { intros Hn. apply Nat.eqb_neq in Hn. apply Nat.ltb_lt. lia. }
  unfold attemptBody, tryCatch, tryBlock, catchBlock, bind, fetch, retryWorld,
    sleptDelay, attemptOutcome, logDraws, responseJson, calculateDelay, mathRandom,
    sleep, ret, throw, bind.
  destruct (provider env (fetchCalls w)) as [r|e].
  - destruct (ok r) eqn:Hok.
    + destruct (json r) as [e|j].
      * fold (isAbort e). destruct (isAbort e); [reflexivity|].
        destruct (attempt =? MAX_RETRIES)%nat; [reflexivity|].
        rewrite Hlt by reflexivity. reflexivity.
      * cbv zeta.
        destruct (length (collectImages (firstParts j) []) =? 0)%nat; [|reflexivity].
        rewrite noImageError_not_abort.
        destruct (attempt =? MAX_RETRIES)%nat; [reflexivity|].
        rewrite Hlt by reflexivity. reflexivity.
    + cbv zeta. rewrite statusError_not_abort.
      destruct (shouldRetry (status r));
        destruct (attempt =? MAX_RETRIES)%nat; try reflexivity;
        rewrite ?Hlt by reflexivity; reflexivity.
  - fold (isAbort e). destruct (isAbort e); [reflexivity|].
    destruct (attempt =? MAX_RETRIES)%nat; [reflexivity|].
    rewrite Hlt by reflexivity. reflexivity.
Qed.

(** One unfolding of the loop. *)
Lemma retryLoop_step body remaining attempt le w :
  (attempt <= MAX_RETRIES)%nat ->
  retryLoop env body (S remaining) attempt le w =
  match attemptOutcome (provider env (fetchCalls w)) with
  | inr images => (inr images, wFetch body w)
  | inl e =>
      if isAbort e then (inl timeoutError, wFetch body w)
      else if (attempt =? MAX_RETRIES)%nat then (inl e, wFetch body w)
      else retryLoop env body remaining (S attempt) (Some e)
             (retryWorld env body attempt w)
  end.
Proof.
  intros Hle. cbn [retryLoop]. unfold bind.
  rewrite attemptBody_eq by assumption.
  destruct (attemptOutcome _) as [e|images]; [|reflexivity].
  destruct (isAbort e); [reflexivity|].
  destruct (attempt =? MAX_RETRIES)%nat; reflexivity.
Qed.

(** The loop follows the state machine. *)
Lemma retryLoop_Runs body remaining attempt le w :
  (attempt + S remaining = MAX_RETRIES + 1)%nat ->
  Runs env body attempt w
    (retryLoop env body (S remaining) attempt le w).1
    (retryLoop env body (S remaining) attempt le w).2.
Proof.
  revert attempt le w.
  induction remaining as [|k IH]; intros attempt le w Hsum;
    rewrite retryLoop_step by lia;
    destruct (attemptOutcome _) as [e|images] eqn:Ho;
    try (eapply Run_succeeded; eassumption);
    destruct (isAbort e) eqn:Ha;
    try (eapply Run_timed_out; eassumption).
  - assert (attempt = MAX_RETRIES) as -> by lia.
    rewrite Nat.eqb_refl. eapply Run_failed; eassumption.
  - assert (Hn : (attempt =? MAX_RETRIES)%nat = false)
      by (apply Nat.eqb_neq; lia).
    rewrite Hn.
    eapply Run_retry; [lia | eassumption | assumption |].
    apply IH. lia.
Qed.

(** Resolving the inputs leaves the world as it is. *)
Lemma toInlineDataParts_loop_world inputs acc w :
  (toInlineDataParts_loop cfg inputs acc w).2 = w.
Proof.
  revert acc. induction inputs as [|input rest IH]; intros acc; [reflexivity|].
  cbn [toInlineDataParts_loop]. unfold bind, fileToBase64, readFile, ret.
  destruct (negb (truthyO (dataBase64 input)) && truthyO (path input)).
  - destruct (readOutcome cfg (fs w) _) as [e|c]; [reflexivity|].
    destruct (negb (truthyO (Some c))); [reflexivity | apply IH].
  - destruct (negb (truthyO (dataBase64 input))); [reflexivity | apply IH].
Qed.

(** When every input resolves, the parts are the inputs in order. *)
Lemma toInlineDataParts_loop_resolved inputs acc w :
  Forall (fun input => is_Some (resolvedData cfg (fs w) input)) inputs ->
  toInlineDataParts_loop cfg inputs acc w =
  (inr (acc ++ List.map (inlinePartOf cfg (fs w)) inputs), w).
Proof.
  revert acc. induction inputs as [|input rest IH]; intros acc Hall.
  - cbn. by rewrite app_nil_r.
  - inversion Hall as [|? ? [d Hd] Hrest]; subst.
    cbn [toInlineDataParts_loop List.map]. unfold bind, fileToBase64, readFile, ret.
    unfold inlinePartOf at 1. rewrite Hd. unfold resolvedData in Hd.
    destruct (truthyO (dataBase64 input)) eqn:Hb; cbn [negb andb].
    + rewrite Hb. cbn [negb]. rewrite IH by assumption.
      rewrite Hd. cbn [nullish]. by rewrite <- app_assoc.
    + destruct (truthyO (path input)) eqn:Hp; [|discriminate].
      destruct (readOutcome cfg (fs w) _) as [e|c]; [discriminate|].
      destruct (truthy c) eqn:Hc; [|discriminate].
      injection Hd as ->. cbn [truthyO]. rewrite Hc. cbn [negb].
      rewrite IH by assumption. cbn [nullish]. by rewrite <- app_assoc.
Qed.

(** An input that does not resolve makes the loop throw. *)
Lemma toInlineDataParts_loop_unresolved inputs acc w :
  Exists (fun input => resolvedData cfg (fs w) input = None) inputs ->
  exists e, toInlineDataParts_loop cfg inputs acc w = (inl e, w).
Proof.
  intros Hex.
  pose proof (toInlineDataParts_loop_world inputs acc w) as Hw.
  destruct (toInlineDataParts_loop cfg inputs acc w) as [[e|ps] w'] eqn:Hrun;
    cbn in Hw; subst w'; [by eexists|].
  exfalso. revert acc ps Hrun.
  induction inputs as [|input rest IH]; intros acc ps Hrun; [inversion Hex|].
  cbn [toInlineDataParts_loop] in Hrun.
  unfold bind, fileToBase64, readFile, ret in Hrun.
  unfold resolvedData in Hex.
  destruct (truthyO (dataBase64 input)) eqn:Hb; cbn [negb andb] in Hrun.
  - rewrite Hb in Hrun. cbn [negb] in Hrun.
    inversion Hex as [? ? Hnone|? ? Hlater]; subst.
    + rewrite Hb in Hnone. destruct (dataBase64 input); discriminate.
    + eapply IH; eassumption.
  - destruct (truthyO (path input)) eqn:Hp.
    + destruct (readOutcome cfg (fs w) _) as [e|c] eqn:Hf; [discriminate|].
      cbn [truthyO] in Hrun.
      destruct (truthy c) eqn:Hc; cbn [negb] in Hrun; [|discriminate].
      inversion Hex as [? ? Hnone|? ? Hlater]; subst.
      * rewrite Hb, Hp, Hf, Hc in Hnone. discriminate.
      * eapply IH; eassumption.
    + rewrite Hb in Hrun. discriminate.
Qed.

Lemma toInlineDataParts_world inputs w :
  (toInlineDataParts cfg inputs w).2 = w.
Proof.
  destruct inputs as [[|input rest]|]; try reflexivity.
  apply toInlineDataParts_loop_world.
Qed.

(** The three ways a call can go: no credential, an input that does
    not resolve, or a run of the retry loop on the request built. *)
Lemma callGeminiGenerate_cases request w :
  (credentialMissing cfg /\
   callGeminiGenerate cfg env request w = (inl credentialError, w))
  \/ (~ credentialMissing cfg /\ exists e,
      toInlineDataParts cfg (images request) w = (inl e, w) /\
      callGeminiGenerate cfg env request w = (inl e, w))
  \/ (~ credentialMissing cfg /\ exists imageParts,
      toInlineDataParts cfg (images request) w = (inr imageParts, w) /\
      Runs env (TextPart (prompt request) :: imageParts) 0 w
        (callGeminiGenerate cfg env request w).1
        (callGeminiGenerate cfg env request w).2).
Proof.
  unfold callGeminiGenerate, credentialMissing, truthy.
  destruct (String.eqb (GEMINI_API_KEY cfg) "") eqn:Hk; cbn [negb orb].
  { left. apply String.eqb_eq in Hk. by split; [left|]. }
  destruct (trimIsEmpty (GEMINI_API_KEY cfg)) eqn:Ht.
  { left. by split; [right|]. }
  right. apply String.eqb_neq in Hk.
  assert (Hkey : ¬ (GEMINI_API_KEY cfg = "" ∨ false = true))
    by (intros [?|?]; [contradiction|discriminate]).
  pose proof (toInlineDataParts_world (images request) w) as Hw.
  unfold bind.
  destruct (toInlineDataParts cfg (images request) w) as [[e|ps] w1];
    cbn in Hw; subst w1.
  - left. split; [assumption|]. by exists e.
  - right. split; [assumption|]. exists ps. split; [reflexivity|].
    apply retryLoop_Runs. reflexivity.
Qed.

(** *** Consequences of the state machine *)

Lemma Runs_progress body n w res w' :
  Runs env body n w res w' -> (fetchCalls w < fetchCalls w')%nat.
Proof.
  induction 1 as [| | |n w e res w' Hn Ho Ha _ IH]; cbn; try lia.
  cbn in IH. lia.
Qed.

Lemma Runs_bound body n w res w' :
  Runs env body n w res w' -> (n <= MAX_RETRIES)%nat ->
  (fetchCalls w' + n <= fetchCalls w + MAX_RETRIES + 1)%nat.
Proof.
  induction 1 as [| | |n w e res w' Hn Ho Ha _ IH]; cbn; intros Hle; try lia.
  cbn in IH. lia.
Qed.

Lemma Runs_fs body n w res w' :
  Runs env body n w res w' -> fs w' = fs w.
Proof. induction 1; cbn in *; congruence. Qed.

(** Every attempt made was either retried or the last one. *)
Lemma Runs_attempt body n w res w' :
  Runs env body n w res w' ->
  forall i, attemptMade w w' i ->
            retried env w w' n i \/ concluded env w w' n i res.
Proof.
  unfold retried, concluded, attemptMade, lastAttempt, answerTo.
  induction 1 as [n w images Ho|n w e Ho Ha|w e Ho Ha|n w e res w' Hn Ho Ha Hrun IH];
    intros i Hi; cbn in *.
  - right. assert (i = 0)%nat as -> by lia. rewrite Nat.add_0_r, Ho. split; [lia|done].
  - right. assert (i = 0)%nat as -> by lia. rewrite Nat.add_0_r, Ho, Ha. split; [lia|done].
  - right. assert (i = 0)%nat as -> by lia. rewrite Nat.add_0_r, Ho, Ha.
    split; [lia|]. split; reflexivity.
  - apply Runs_progress in Hrun as Hp. cbn in Hp.
    destruct i as [|i].
    + left. rewrite !Nat.add_0_r. split; [lia|]. split; [lia|]. by exists e.
    + destruct (IH i ltac:(lia)) as [(Hm & Hb & Hout)|(Hl & Hout)].
      * left. split; [lia|]. split; [lia|].
        by replace (fetchCalls w + S i)%nat with (S (fetchCalls w + i)) by lia.
      * right. split; [lia|].
        replace (fetchCalls w + S i)%nat with (S (fetchCalls w + i)) by lia.
        destruct (attemptOutcome (provider env (S (fetchCalls w + i))))
          as [e'|images]; [|assumption].
        destruct (isAbort e'); [assumption|].
        destruct Hout as [? ?]. split; [lia|assumption].
Qed.

(** The trace of a run: request, sleep, request, ..., request. *)
Lemma Runs_trace body n w res w' :
  Runs env body n w res w' ->
  exists ds,
    trace w' = trace w ++ traceOf body ds /\
    fetchCalls w' = (fetchCalls w + S (length ds))%nat /\
    forall i d, ds !! i = Some d ->
                exists k, d = delayOf (n + i) (random env k).
Proof.
  induction 1 as [n w images Ho|n w e Ho Ha|w e Ho Ha|n w e res w' Hn Ho Ha Hrun IH].
  1-3: exists []; cbn; split; [reflexivity|]; split; [lia|]; intros i d Hd;
       by rewrite lookup_nil in Hd.
  destruct IH as (ds & Ht & Hf & Hds).
  exists (sleptDelay env n w :: ds). cbn in *.
  split; [|split].
  - rewrite Ht. unfold traceOf. cbn. by rewrite <- !app_assoc.
  - lia.
  - intros [|i] d Hd; cbn in Hd.
    + injection Hd as <-. rewrite Nat.add_0_r. unfold sleptDelay. by eexists.
    + destruct (Hds i d Hd) as [k ->]. exists k. f_equal. lia.
Qed.

Lemma sleeps_traceOf body ds : sleeps (traceOf body ds) = ds.
Proof.
  unfold traceOf, sleeps. induction ds as [|d ds IH]; [reflexivity|].
  cbn. f_equal. exact IH.
Qed.

Lemma fetches_traceOf body ds :
  fetches (traceOf body ds) = replicate (S (length ds)) (Fetch body).
Proof.
  unfold traceOf, fetches. induction ds as [|d ds IH]; [reflexivity|].
  cbn. f_equal. exact IH.
Qed.

(** The delay lies between the exponential base and one second more;
    both ends are reached. *)
Lemma delayOf_bounds n r :
  (n <= 42)%nat -> (0 <= r)%Q -> (r < 1)%Q ->
  (inject_Z (1000 * 2 ^ Z.of_nat n) <= delayOf n r)%Q /\
  (delayOf n r <= inject_Z (1000 * 2 ^ Z.of_nat n) + 1000)%Q.
Proof.
  intros Hn H0 H1. unfold delayOf, BASE_DELAY.
  assert (Hpow : (0 < 2 ^ Z.of_nat n <= 2 ^ 42)%Z).
  { split; [apply Z.pow_pos_nonneg; lia|apply Z.pow_le_mono_r; lia]. }
  assert (H53 : (1000 * 2 ^ Z.of_nat n + 1000 < 2 ^ 53)%Z).
  { change (2 ^ 42)%Z with 4398046511104%Z in Hpow.
    change (2 ^ 53)%Z with 9007199254740992%Z. lia. }
  set (b := (1000 * 2 ^ Z.of_nat n)%Z) in *.
  destruct (round64_between b b (inject_Z b)) as [Hb1 Hb2]; [lia|lia|lra|lra|].
  destruct (round64_between 0 1000 (r * 1000)%Q) as [Hj1 Hj2]; [lia|reflexivity| | |].
  { change (inject_Z 0) with 0%Q. lra. }
  { change (inject_Z 1000) with 1000%Q. lra. }
  change (inject_Z 0) with 0%Q in Hj1. change (inject_Z 1000) with 1000%Q in Hj2.
  destruct (round64_between b (b + 1000)
              (round64 (inject_Z b) + round64 (r * 1000))%Q) as [Hs1 Hs2];
    [lia|lia| | |].
  { lra. }
  { rewrite inject_Z_plus. change (inject_Z 1000) with 1000%Q. lra. }
  split; [exact Hs1|].
  rewrite inject_Z_plus in Hs2. exact Hs2.
Qed.

(** The delay is the exponential base plus the jitter, up to the
    rounding of the product and of the sum. *)
Lemma delayOf_error n r :
  (n <= 3)%nat -> (0 <= r)%Q -> (r < 1)%Q ->
  (- (1 # 549755813888) <= delayOf n r - (inject_Z (1000 * 2 ^ Z.of_nat n) + r * 1000))%Q /\
  (delayOf n r - (inject_Z (1000 * 2 ^ Z.of_nat n) + r * 1000) <= 1 # 549755813888)%Q.
Proof.
  intros Hn H0 H1. unfold delayOf, BASE_DELAY.
  assert (Hpow : (0 < 2 ^ Z.of_nat n <= 2 ^ 3)%Z).
  { split; [apply Z.pow_pos_nonneg; lia|apply Z.pow_le_mono_r; lia]. }
  change (2 ^ 3)%Z with 8%Z in Hpow.
  set (b := (1000 * 2 ^ Z.of_nat n)%Z) in *.
  destruct (round64_between b b (inject_Z b)) as [Hb1 Hb2];
    [lia|change (2 ^ 53)%Z with 9007199254740992%Z; lia|lra|lra|].
  assert (Hx0 : (0 <= r * 1000)%Q) by lra.
  assert (Hx1 : (r * 1000 <= inject_Z 1000)%Q)
    by (change (inject_Z 1000) with 1000%Q; lra).
  destruct (round64_between 0 1000 (r * 1000)%Q) as [Hj1 Hj2];
    [lia|reflexivity|exact Hx0|exact Hx1|].
  change (inject_Z 0) with 0%Q in Hj1. change (inject_Z 1000) with 1000%Q in Hj2.
  destruct (round64_error 1000 43 (r * 1000)%Q) as [Hje1 Hje2];
    [lia|reflexivity|exact Hx0|exact Hx1|].
  change (Z.to_pos (2 ^ (43 + 1))) with 17592186044416%positive in Hje1, Hje2.
  destruct (round64_error (b + 1000) 39
              (round64 (inject_Z b) + round64 (r * 1000))%Q) as [Hse1 Hse2];
    [lia|change (2 ^ (53 - 39))%Z with 16384%Z; lia| | |].
  { assert (0 <= inject_Z b)%Q by (unfold Qle; cbn; lia). lra. }
  { rewrite inject_Z_plus. change (inject_Z 1000) with 1000%Q. lra. }
  change (Z.to_pos (2 ^ (39 + 1))) with 1099511627776%positive in Hse1, Hse2.
  split; lra.
Qed.

Lemma append_cons c a b : String c a +:+ b = String c (a +:+ b).
Proof. reflexivity. Qed.

Lemma append_nil_r a : a +:+ "" = a.
Proof. induction a as [|c a IH]; [reflexivity|]. by rewrite append_cons, IH. Qed.

Lemma prefix_append a b : String.prefix a (a +:+ b) = true.
Proof.
  induction a as [|c a IH]; [by destruct b|].
  rewrite append_cons. cbn [String.prefix].
  destruct (ascii_dec c c); [exact IH|congruence].
Qed.

Lemma contains_prefix a b : contains a (a +:+ b) = true.
Proof.
  destruct (a +:+ b) eqn:E; cbn [contains]; rewrite <- E, prefix_append; reflexivity.
Qed.

Lemma contains_of_prefix a b : String.prefix a b = true -> contains a b = true.
Proof. intros H. destruct b; cbn [contains]; by rewrite H. Qed.

(** A string contains each of its truncations. *)
Lemma contains_truncated limit b : contains (String.substring 0 limit b) b = true.
Proof.
  apply contains_of_prefix. revert limit.
  induction b as [|c b IH]; intros [|limit]; try reflexivity.
  cbn [String.substring String.prefix].
  destruct (ascii_dec c c); [apply IH|congruence].
Qed.

Lemma contains_app_r a b c : contains a c = true -> contains a (b +:+ c) = true.
Proof.
  intros H. induction b as [|x b IH]; [exact H|].
  rewrite append_cons. cbn [contains]. rewrite IH. apply orb_true_r.
Qed.

(** A call that made an attempt went through the retry loop. *)
Lemma call_attempt request w i :
  let res := callGeminiGenerate cfg env request w in
  attemptMade w res.2 i ->
  retried env w res.2 0 i \/ concluded env w res.2 0 i res.1.
Proof.
  intros res Hi. subst res.
  destruct (callGeminiGenerate_cases request w)
    as [[_ Heq]|[(_ & e & _ & Heq)|(_ & ps & _ & Hrun)]].
  1-2: rewrite Heq in Hi; unfold attemptMade in Hi; cbn in Hi; lia.
  eapply Runs_attempt; eassumption.
Qed.

Lemma call_trace request w :
  let res := callGeminiGenerate cfg env request w in
  res.2 = w \/
  exists imageParts ds,
    toInlineDataParts cfg (images request) w = (inr imageParts, w) /\
    trace res.2 = trace w ++ traceOf (TextPart (prompt request) :: imageParts) ds /\
    fetchCalls res.2 = (fetchCalls w + S (length ds))%nat /\
    (length ds <= MAX_RETRIES)%nat /\
    forall i d, ds !! i = Some d -> exists k, d = delayOf i (random env k).
Proof.
  intros res. subst res.
  destruct (callGeminiGenerate_cases request w)
    as [[_ Heq]|[(_ & e & _ & Heq)|(_ & ps & Hps & Hrun)]].
  1-2: left; by rewrite Heq.
  right. pose proof (Runs_bound _ _ _ _ _ Hrun ltac:(lia)) as Hb.
  destruct (Runs_trace _ _ _ _ _ Hrun) as (ds & Ht & Hf & Hds).
  exists ps, ds. repeat split; try assumption. lia.
Qed.

End PipelineFacts.

(** ** The claims about the request pipeline *)

(** C1 (the code departs from the claim). The specification makes a
    success status without image parts a terminal failure. In the code
    the [throw] for it sits inside the [try] block, so the [catch] of the
    same iteration takes it for a transient fault: here the first answer
    is a 200 without images, and the call sleeps, sends the request
    again, and succeeds with the image of the second answer. *)
Theorem empty_answer_is_retried :
  let res := callGeminiGenerate Sample.cfg Sample.emptyThenImage Sample.request Sample.world in
  attemptOutcome (answerTo Sample.emptyThenImage Sample.world 0) = inl noImageError /\
  res.1 = inr [{| imageBase64 := "QUJD"; imageMimeType := "image/jpeg" |}] /\
  trace res.2 = [Fetch [TextPart "a cat"]; Sleep (3000 # 2); Fetch [TextPart "a cat"]].
Proof. vm_compute. repeat split. Qed.

(** The same for every attempt before the last: a success status
    without image parts is followed by another attempt. *)
Lemma empty_answer_retried_before_last cfg env request w n r j :
  let res := callGeminiGenerate cfg env request w in
  attemptMade w res.2 n -> (n < MAX_RETRIES)%nat ->
  answerTo env w n = Resolved r -> ok r = true -> json r = inr j ->
  collectImages (firstParts j) [] = [] ->
  attemptMade w res.2 (S n).
Proof.
  intros res Hn Hlt Ha Hok Hj Himg.
  destruct (call_attempt cfg env request w n Hn) as [(Hm & _)|(_ & Hc)]; [exact Hm|].
  rewrite Ha in Hc. cbn in Hc. rewrite Hok, Hj, Himg in Hc. cbn in Hc. lia.
Qed.

(** C2 (as stated, refuted). A timeout on the first attempt ends the
    call: no second attempt is made. *)
Lemma timeout_not_retried :
  ~ timeout_retried_claim Sample.cfg Sample.timesOut Sample.request Sample.world.
Proof.
  intros H. specialize (H 0%nat).
  assert (Hm : attemptMade Sample.world
                 (callGeminiGenerate Sample.cfg Sample.timesOut Sample.request Sample.world).2 1).
  { apply H.
    - unfold MAX_RETRIES. lia.
    - vm_compute. lia.
    - exists AbortError. split; reflexivity. }
  vm_compute in Hm. lia.
Qed.

(** C2 (amended). On every attempt, an attempt that exceeds the
    60-second timeout ends the call with the error "Request timed out
    after 60 seconds"; no further attempt is made. *)
Theorem timeout_ends_the_call cfg env request w n :
  let res := callGeminiGenerate cfg env request w in
  attemptMade w res.2 n ->
  timedOut (answerTo env w n) ->
  res.1 = inl timeoutError /\ lastAttempt w res.2 n /\
  message timeoutError = "Request timed out after 60 seconds".
Proof.
  intros res Hn (e & Ha & He).
  destruct (call_attempt cfg env request w n Hn)
    as [(_ & _ & e' & Ho & He')|(Hl & Hc)].
  - rewrite Ha in Ho. cbn in Ho. congruence.
  - rewrite Ha in Hc. cbn in Hc. rewrite He in Hc. by repeat split.
Qed.

Lemma timeout_ends_the_call_witness :
  let res := callGeminiGenerate Sample.cfg Sample.timesOut Sample.request Sample.world in
  res.1 = inl timeoutError /\ lastAttempt Sample.world res.2 0 /\
  message timeoutError = "Request timed out after 60 seconds".
Proof.
  apply (timeout_ends_the_call Sample.cfg Sample.timesOut Sample.request Sample.world 0).
  - vm_compute. lia.
  - exists AbortError. split; reflexivity.
Defined.

(** C3 (as stated, refuted). Status 599 lies outside [500, 599), and
    yet the first attempt that receives it is followed by a second. *)
Lemma status_599_is_retried :
  ~ retry_rule_claim Sample.cfg Sample.status599 Sample.request Sample.world.
Proof.
  intros H.
  destruct (H 0%nat _ ltac:(vm_compute; lia) eq_refl eq_refl) as [Hto _].
  destruct Hto as [[Hs|[_ Hs]] _].
  - vm_compute. lia.
  - discriminate Hs.
  - cbn in Hs. lia.
Qed.

Lemma shouldRetry_spec s :
  shouldRetry s = true <-> (s = 429 \/ 500 <= s < 600)%Z.
Proof. unfold shouldRetry. lia. Qed.

(** C3 (amended). [shouldRetry] holds of 429 and of the statuses in
    [500, 600). After an error status on attempt n: if the status is one
    of these and n < MAX_RETRIES, attempt n+1 is made; if n = MAX_RETRIES,
    the call fails with the error for that status and no further attempt
    is made. No attempt has a number above MAX_RETRIES. *)
Theorem retry_rule cfg env request w n r :
  let res := callGeminiGenerate cfg env request w in
  attemptMade w res.2 n ->
  answerTo env w n = Resolved r ->
  ok r = false ->
  (shouldRetry (status r) = true <-> (status r = 429 \/ 500 <= status r < 600)%Z) /\
  ((n < MAX_RETRIES)%nat -> shouldRetry (status r) = true -> attemptMade w res.2 (S n)) /\
  (n = MAX_RETRIES ->
   lastAttempt w res.2 n /\ res.1 = inl (statusError r (bodyText r))) /\
  (n <= MAX_RETRIES)%nat.
Proof.
  intros res Hn Ha Hok. split; [apply shouldRetry_spec|].
  destruct (call_attempt cfg env request w n Hn)
    as [(Hm & Hlt & _)|(Hl & Hc)].
  - split; [intros _ _; exact Hm|]. split; [intros Hmax; lia|lia].
  - rewrite Ha in Hc. cbn in Hc. rewrite Hok in Hc. cbn in Hc.
    destruct Hc as [Hmax Hres].
    split; [intros Hlt; lia|]. split; [intros _; by split|lia].
Qed.

Lemma retry_rule_witness :
  let res := callGeminiGenerate Sample.cfg Sample.alwaysBusy Sample.request Sample.world in
  let r := {| status := 503; bodyText := "busy";
              json := inr {| candidates := Some [{| content := Some {| parts := Some [] |} |}] |} |} in
  (shouldRetry 503 = true <-> (503 = 429 \/ 500 <= 503 < 600)%Z) /\
  ((0 < MAX_RETRIES)%nat -> shouldRetry 503 = true -> attemptMade Sample.world res.2 1) /\
  (0%nat = MAX_RETRIES ->
   lastAttempt Sample.world res.2 0 /\ res.1 = inl (statusError r "busy")) /\
  (0 <= MAX_RETRIES)%nat.
Proof.
  intros res r.
  refine (retry_rule Sample.cfg Sample.alwaysBusy Sample.request Sample.world 0 r _ _ _).
  - vm_compute. lia.
  - reflexivity.
  - reflexivity.
Defined.

(** C7 (as stated, refuted). When the last attempt, too, is answered
    with status 200 and no image, the error that reaches the caller is
    "No image data returned by Gemini API": the status code is not in
    it. *)
Lemma no_image_error_lacks_status :
  ~ error_content_claim Sample.cfg Sample.alwaysEmpty Sample.request Sample.world.
Proof.
  intros H.
  destruct (H noImageError 3%nat _ eq_refl eq_refl eq_refl) as [Hs _].
  vm_compute in Hs. discriminate Hs.
Qed.

(** C7 (amended). A call whose last attempt timed out fails with a
    message that contains the timeout in seconds (60). A call that fails
    on a response with a non-success status fails with the message
    "Gemini API error <status>: <body>", which contains the status code
    and the whole response body. A call that fails on a success response
    without images fails with "No image data returned by Gemini API". *)
Theorem terminal_error_messages cfg env request w n e :
  let res := callGeminiGenerate cfg env request w in
  res.1 = inl e ->
  lastAttempt w res.2 n ->
  match answerTo env w n with
  | Rejected e' =>
      if isAbort e'
      then message e = "Request timed out after " +:+ pretty (REQUEST_TIMEOUT / 1000)%Z
                         +:+ " seconds" /\
           contains (pretty (REQUEST_TIMEOUT / 1000)%Z) (message e) = true
      else e = e'
  | Resolved r =>
      if ok r
      then match json r with
           | inr _ => message e = "No image data returned by Gemini API"
           | inl e' => e = if isAbort e' then timeoutError else e'
           end
      else message e = "Gemini API error " +:+ pretty (status r) +:+ ": " +:+ bodyText r /\
           contains (pretty (status r)) (message e) = true /\
           contains (bodyText r) (message e) = true /\
           forall limit,
             contains (String.substring 0 limit (bodyText r)) (message e) = true
  end.
Proof.
  intros res He Hl. subst res.
  assert (Hn : attemptMade w (callGeminiGenerate cfg env request w).2 n)
    by (unfold attemptMade, lastAttempt in *; lia).
  destruct (call_attempt cfg env request w n Hn) as [(Hm & _)|(_ & Hc)].
  { unfold attemptMade, lastAttempt in *. lia. }
  rewrite He in Hc.
  destruct (answerTo env w n) as [r|e']; cbn in Hc.
  - destruct (ok r).
    + destruct (json r) as [e'|j].
      * destruct (isAbort e'); [congruence|]. destruct Hc as [_ Hc]. congruence.
      * destruct (length _ =? 0)%nat; [|discriminate].
        rewrite noImageError_not_abort in Hc. destruct Hc as [_ Hc].
        injection Hc as ->. reflexivity.
    + rewrite statusError_not_abort in Hc. destruct Hc as [_ Hc].
      injection Hc as ->. cbn [message statusError Error].
      split; [reflexivity|]. split; [|split].
      * apply contains_app_r, contains_prefix.
      * apply contains_app_r, contains_app_r, contains_app_r.
        rewrite <- (append_nil_r (bodyText r)) at 2. apply contains_prefix.
      * intros limit. apply contains_app_r, contains_app_r, contains_app_r.
        apply contains_truncated.
  - destruct (isAbort e').
    + injection Hc as ->. cbn [message timeoutError Error].
      split; [reflexivity|]. apply contains_app_r, contains_prefix.
    + destruct Hc as [_ Hc]. congruence.
Qed.

Lemma terminal_error_messages_witness :
  let e := statusError {| status := 503; bodyText := "busy";
                          json := inr {| candidates := Some [{| content := Some {| parts := Some [] |} |}] |} |}
             "busy" in
  message e = "Gemini API error " +:+ pretty 503%Z +:+ ": " +:+ "busy" /\
  contains (pretty 503%Z) (message e) = true /\
  contains "busy" (message e) = true /\
  forall limit, contains (String.substring 0 limit "busy") (message e) = true.
Proof.
  intros e.
  refine (terminal_error_messages Sample.cfg Sample.alwaysBusy Sample.request Sample.world
            3 e _ _).
  - reflexivity.
  - reflexivity.
Defined.

(** C9 (as stated, refuted). With [Math.random] at the largest double
    below 1, the jitter [r * 1000] is rounded to [1000 - 2^-43] and the
    sum [1000 + (1000 - 2^-43)], a tie, to 2000: the first delay is
    2000 ms, which is not below [1000 * 2^0 + 1000]. *)
Lemma delay_reaches_upper_bound :
  ~ delay_bound_claim Sample.cfg Scenario.jitterAtTop Sample.request Sample.world.
Proof.
  intros Hclaim.
  destruct (Hclaim ltac:(intros k; split; vm_compute; [discriminate|reflexivity])
              (trace (callGeminiGenerate Sample.cfg Scenario.jitterAtTop
                        Sample.request Sample.world).2)
              0%nat (delayOf 0 (random Scenario.jitterAtTop 0))) as [_ Hlt].
  - reflexivity.
  - vm_compute. reflexivity.
  - vm_compute in Hlt. discriminate Hlt.
Qed.

(** C9 (amended). MAX_RETRIES is 3 and a call sends at most 4 requests.
    A call that sends any has the trace request, sleep d_0, request,
    sleep d_1, ..., request, with at most 3 sleeps: d_n is the time
    slept after attempt n, before attempt n+1. It is the double that
    [calculateDelay(n)] computes from a value r of [Math.random]: it
    is 1000 * 2^n plus the jitter r * 1000 up to a rounding error of
    2^-39 ms at most, and with r in [0, 1) it satisfies
    1000 * 2^n <= d_n <= 1000 * 2^n + 1000. *)
Theorem attempts_and_delays cfg env request w :
  (forall k, (0 <= random env k)%Q /\ (random env k < 1)%Q) ->
  let res := callGeminiGenerate cfg env request w in
  MAX_RETRIES = 3%nat /\
  (fetchCalls res.2 - fetchCalls w <= 4)%nat /\
  (res.2 = w \/
   exists body ds,
     trace res.2 = trace w ++ traceOf body ds /\
     fetchCalls res.2 = (fetchCalls w + S (length ds))%nat /\
     (length ds <= 3)%nat /\
     forall n d, ds !! n = Some d ->
       attemptMade w res.2 (S n) /\
       (exists k,
          d = delayOf n (random env k) /\
          (- (1 # 549755813888)
           <= d - (inject_Z (BASE_DELAY * 2 ^ Z.of_nat n) + random env k * 1000))%Q /\
          (d - (inject_Z (BASE_DELAY * 2 ^ Z.of_nat n) + random env k * 1000)
           <= 1 # 549755813888)%Q) /\
       (inject_Z (1000 * 2 ^ Z.of_nat n) <= d)%Q /\
       (d <= inject_Z (1000 * 2 ^ Z.of_nat n) + 1000)%Q).
Proof.
  intros Hrand res. subst res. split; [reflexivity|].
  destruct (call_trace cfg env request w) as [Heq|(ps & ds & _ & Ht & Hf & Hlen & Hds)].
  - rewrite Heq. split; [lia|]. by left.
  - unfold MAX_RETRIES in Hlen. split; [lia|]. right.
    exists (TextPart (prompt request) :: ps), ds.
    split; [exact Ht|]. split; [exact Hf|]. split; [exact Hlen|].
    intros n d Hd. apply lookup_lt_Some in Hd as Hn. split.
    + unfold attemptMade. rewrite Hf. lia.
    + destruct (Hds n d Hd) as [k ->].
      destruct (Hrand k) as [H0 H1]. split.
      * exists k. split; [reflexivity|]. apply delayOf_error; [lia|assumption..].
      * apply delayOf_bounds; [lia|assumption..].
Qed.

Lemma attempts_and_delays_witness :
  let res := callGeminiGenerate Sample.cfg Scenario.jitterAtTop Sample.request Sample.world in
  (fetchCalls res.2 - fetchCalls Sample.world <= 4)%nat /\
  (res.2 = Sample.world \/
   exists body ds,
     trace res.2 = trace Sample.world ++ traceOf body ds /\
     fetchCalls res.2 = (fetchCalls Sample.world + S (length ds))%nat /\
     (length ds <= 3)%nat /\
     forall n d, ds !! n = Some d ->
       attemptMade Sample.world res.2 (S n) /\
       (exists k,
          d = delayOf n (random Scenario.jitterAtTop k) /\
          (- (1 # 549755813888)
           <= d - (inject_Z (BASE_DELAY * 2 ^ Z.of_nat n)
                   + random Scenario.jitterAtTop k * 1000))%Q /\
          (d - (inject_Z (BASE_DELAY * 2 ^ Z.of_nat n)
                + random Scenario.jitterAtTop k * 1000)
           <= 1 # 549755813888)%Q) /\
       (inject_Z (1000 * 2 ^ Z.of_nat n) <= d)%Q /\
       (d <= inject_Z (1000 * 2 ^ Z.of_nat n) + 1000)%Q).
Proof.
  intros res.
  assert (Hrand : forall k, (0 <= random Scenario.jitterAtTop k)%Q /\
                            (random Scenario.jitterAtTop k < 1)%Q).
  { intros k. split; vm_compute; [discriminate|reflexivity]. }
  destruct (attempts_and_delays Sample.cfg Scenario.jitterAtTop Sample.request Sample.world
              Hrand) as (_ & Hfour & Hshape).
  split; [exact Hfour|exact Hshape].
Defined.

(** C4. When the credential is set and every input image resolves, each
    request sent carries the same parts list: the text prompt first, and
    the i-th input image, with its MIME type (default image/png) and its
    bytes, at position i+1. At least one request is sent. *)
Theorem request_parts_in_order cfg env request w :
  ~ credentialMissing cfg ->
  Forall (fun input => is_Some (resolvedData cfg (fs w) input))
         (nullish (images request) []) ->
  let res := callGeminiGenerate cfg env request w in
  let body := TextPart (prompt request)
                :: List.map (inlinePartOf cfg (fs w)) (nullish (images request) []) in
  (exists ds, trace res.2 = trace w ++ traceOf body ds) /\
  body !! 0%nat = Some (TextPart (prompt request)) /\
  length body = S (length (nullish (images request) [])) /\
  forall i input d,
    nullish (images request) [] !! i = Some input ->
    resolvedData cfg (fs w) input = Some d ->
    body !! S i = Some (InlineDataPart (nullish (inputMimeType input) "image/png") d).
Proof.
  intros Hkey Hall res body. subst res body.
  assert (Hparts : toInlineDataParts cfg (images request) w =
                   (inr (List.map (inlinePartOf cfg (fs w)) (nullish (images request) [])), w)).
  { destruct (images request) as [[|input rest]|]; try reflexivity.
    cbn [nullish] in *. unfold toInlineDataParts.
    by rewrite toInlineDataParts_loop_resolved. }
  split; [|split; [reflexivity|split]].
  - destruct (callGeminiGenerate_cases cfg env request w)
      as [[Hmiss _]|[(_ & e & He & _)|(_ & ps & Hps & Hrun)]].
    + contradiction.
    + rewrite Hparts in He. discriminate He.
    + rewrite Hparts in Hps. injection Hps as <-.
      destruct (Runs_trace _ _ _ _ _ _ Hrun) as (ds & Ht & _). by exists ds.
  - cbn. by rewrite length_map.
  - intros i input d Hi Hd. cbn.
    rewrite list_lookup_fmap_Some. exists input. split; [|exact Hi].
    unfold inlinePartOf. by rewrite Hd.
Qed.

(** C8. When the credential is absent, empty or blank, or when some
    input image has neither encoded bytes nor a readable, non-empty file
    at its path, the call fails and leaves the world as it found it: no
    request is sent. *)
Theorem fail_fast cfg env request w :
  credentialMissing cfg \/
  Exists (fun input => resolvedData cfg (fs w) input = None) (nullish (images request) []) ->
  let res := callGeminiGenerate cfg env request w in
  (exists e, res.1 = inl e) /\
  res.2 = w /\ trace res.2 = trace w /\ fetchCalls res.2 = fetchCalls w.
Proof.
  intros Hbad res. subst res.
  assert (Hfail : exists e, callGeminiGenerate cfg env request w = (inl e, w)).
  { destruct (callGeminiGenerate_cases cfg env request w)
      as [[_ Heq]|[(_ & e & _ & Heq)|(Hkey & ps & Hps & _)]]; [by eexists..|].
    destruct Hbad as [Hmiss|Hex]; [contradiction|].
    destruct (images request) as [[|input rest]|]; cbn [nullish] in Hex;
      [inversion Hex| |inversion Hex].
    destruct (toInlineDataParts_loop_unresolved cfg _ [] w Hex) as [e He].
    unfold toInlineDataParts in Hps. rewrite He in Hps. discriminate Hps. }
  destruct Hfail as [e ->]. cbn. split; [by exists e|done].
Qed.

Lemma request_parts_in_order_witness :
  exists ds,
    trace (callGeminiGenerate Sample.cfg Sample.immediate Sample.editRequest
             Sample.worldWithFile).2 =
    traceOf [TextPart "make it blue"; InlineDataPart "image/jpeg" "AAAA";
             InlineDataPart "image/png" "SU1H"] ds.
Proof.
  assert (Hkey : ~ credentialMissing Sample.cfg).
  { intros [H|H]; discriminate H. }
  assert (Hall : Forall (fun input => is_Some (resolvedData Sample.cfg
                                                 (fs Sample.worldWithFile) input))
                        (nullish (images Sample.editRequest) [])).
  { repeat constructor; vm_compute; eexists; reflexivity. }
  destruct (request_parts_in_order Sample.cfg Sample.immediate Sample.editRequest
              Sample.worldWithFile Hkey Hall) as [[ds Hds] _].
  exists ds. exact Hds.
Defined.

Lemma fail_fast_witness :
  (callGeminiGenerate Sample.cfg Sample.immediate Sample.brokenRequest Sample.worldWithFile).2
  = Sample.worldWithFile.
Proof.
  refine (proj1 (proj2 (fail_fast Sample.cfg Sample.immediate Sample.brokenRequest
                          Sample.worldWithFile _))).
  right. apply Exists_cons_tl, Exists_cons_hd. reflexivity.
Defined.

(** ** Saving: the collision loop and the directories *)

Section PersistenceFacts.

Context (cfg : Config).

Lemma length_append a b :
  String.length (a +:+ b) = (String.length a + String.length b)%nat.
Proof.
  induction a as [|c a IH]; [reflexivity|].
  rewrite append_cons. cbn. by rewrite IH.
Qed.

Lemma append_inj_r a b c : a +:+ c = b +:+ c -> a = b.
Proof.
  revert b. induction a as [|x a IH]; intros [|y b] H.
  - reflexivity.
  - apply (f_equal String.length) in H.
    rewrite !length_append in H. cbn in H. lia.
  - apply (f_equal String.length) in H.
    rewrite !length_append in H. cbn in H. lia.
  - rewrite !append_cons in H. injection H as -> H. f_equal. by apply IH.
Qed.

Lemma join_inj dir f g : Path.join dir f = Path.join dir g -> f = g.
Proof.
  unfold Path.join. destruct (String.eqb dir "/"); intros H.
  - by apply (inj (String.app "/")) in H.
  - apply (inj (String.app dir)) in H. by apply (inj (String.app "/")) in H.
Qed.

Lemma suffixed_inj dir name extension j k :
  suffixed dir name extension j = suffixed dir name extension k -> j = k.
Proof.
  unfold suffixed. intros H. apply join_inj in H.
  apply (inj (String.app name)) in H. apply (inj (String.app "_")) in H.
  apply append_inj_r in H. by apply (inj pretty) in H.
Qed.

Lemma suffixed_not_root dir name extension k :
  String.eqb (suffixed dir name extension k) "/" = false.
Proof.
  apply String.eqb_neq. intros H. apply (f_equal String.length) in H.
  unfold suffixed, Path.join in H.
  destruct (String.eqb dir "/"); rewrite !length_append in H; cbn in H; lia.
Qed.

Lemma exists_suffixed m dir name extension k :
  exists_ m (suffixed dir name extension k) = true ->
  suffixed dir name extension k ∈ dom m.
Proof.
  unfold exists_. rewrite suffixed_not_root. cbn.
  intros H. apply bool_decide_eq_true in H. by apply elem_of_dom.
Qed.

Lemma exists_false_lookup (m : gmap string Node) p :
  exists_ m p = false -> m !! p = None.
Proof.
  unfold exists_. intros H. apply orb_false_elim in H as [_ H].
  apply bool_decide_eq_false in H. by apply eq_None_not_Some.
Qed.

Lemma exists_lookup (m : gmap string Node) p n :
  m !! p = Some n -> exists_ m p = true.
Proof.
  intros H. unfold exists_. apply orb_true_iff. right.
  apply bool_decide_eq_true. by eexists.
Qed.

(** [access] resolves for what is there and can be reached. *)
Lemma accessible_true m p :
  accessible cfg m p = true -> pathFault cfg p = None /\ exists_ m p = true.
Proof. unfold accessible. by destruct (pathFault cfg p). Qed.

Lemma accessible_false m p :
  accessible cfg m p = false -> pathFault cfg p = None -> m !! p = None.
Proof.
  unfold accessible. intros H Hf. rewrite Hf in H. by apply exists_false_lookup.
Qed.

(** What the loop returns is the first path of the sequence on which
    [access] fails. *)
Lemma findFreePath_Some fuel m dir name extension finalPath c q :
  findFreePath cfg fuel m dir name extension finalPath c = Some q ->
  exists k,
    q = candidateFrom dir name extension finalPath c k /\
    accessible cfg m q = false /\
    forall j, (j < k)%nat ->
              accessible cfg m (candidateFrom dir name extension finalPath c j) = true.
Proof.
  revert finalPath c.
  induction fuel as [|fuel IH]; intros finalPath c H; [discriminate H|].
  cbn [findFreePath] in H.
  destruct (accessible cfg m finalPath) eqn:He.
  - destruct (IH _ _ H) as (k & Hq & Hfree & Hbefore).
    exists (S k). split; [|split; [exact Hfree|]].
    + rewrite Hq. destruct k as [|k]; cbn [candidateFrom]; f_equal; lia.
    + intros [|j] Hj; [exact He|].
      specialize (Hbefore j ltac:(lia)).
      destruct j as [|j]; cbn [candidateFrom] in *.
      * by replace (c + 1)%nat with (S c) by lia.
      * by replace (c + S (S j))%nat with (S c + S j)%nat by lia.
  - injection H as <-. exists 0%nat. split; [reflexivity|]. split; [exact He|].
    intros j Hj. lia.
Qed.

Lemma findFreePath_None fuel m dir name extension finalPath c :
  findFreePath cfg fuel m dir name extension finalPath c = None ->
  forall j, (1 <= j < fuel)%nat ->
            accessible cfg m (suffixed dir name extension (c + j)) = true.
Proof.
  revert finalPath c.
  induction fuel as [|fuel IH]; intros finalPath c H j Hj; [lia|].
  cbn [findFreePath] in H.
  destruct (accessible cfg m finalPath) eqn:He; [|discriminate H].
  destruct fuel as [|fuel]; [lia|].
  destruct (decide (j = 1%nat)) as [->|Hne].
  - cbn [findFreePath] in H.
    replace (c + 1)%nat with (S c) by lia.
    by destruct (accessible cfg m (suffixed dir name extension (S c))).
  - replace (c + j)%nat with (S c + (j - 1))%nat by lia.
    eapply IH; [exact H|lia].
Qed.

(** The loop always ends: a file system with [size m] entries cannot
    hold [size m + 1] different suffixed names. *)
Lemma findFreePath_total (m : gmap string Node) dir name extension finalPath :
  is_Some (findFreePath cfg (size m + 2) m dir name extension finalPath 0).
Proof.
  destruct (findFreePath cfg (size m + 2) m dir name extension finalPath 0) eqn:H;
    [by eexists|].
  exfalso.
  pose proof (findFreePath_None _ _ _ _ _ _ _ H) as Hall.
  set (names := (fun j => suffixed dir name extension (S j)) <$> seq 0 (size m + 1)).
  assert (Hnodup : NoDup names).
  { apply NoDup_fmap_2; [|apply NoDup_seq].
    intros j k Hjk. apply suffixed_inj in Hjk. lia. }
  assert (Hsub : list_to_set (C := gset string) names ⊆ dom m).
  { intros x Hx. apply elem_of_list_to_set in Hx.
    apply list_elem_of_fmap in Hx as (j & -> & Hj).
    apply elem_of_seq in Hj. apply exists_suffixed.
    apply (accessible_true m). apply (Hall (S j)). lia. }
  apply subseteq_size in Hsub.
  rewrite size_list_to_set in Hsub by exact Hnodup.
  rewrite size_dom in Hsub. unfold names in Hsub.
  rewrite length_fmap, length_seq in Hsub. lia.
Qed.

(** [mkdir -p] keeps what is there and only adds directories, also
    when it fails on the way. *)
Lemma mkdirChain_preserves dir chain (m m1 : gmap string Node) o :
  mkdirChain cfg dir chain m = (o, m1) ->
  forall q n, m !! q = Some n -> m1 !! q = Some n.
Proof.
  revert m. induction chain as [|d rest IH]; intros m H q n Hq.
  - injection H as <- <-. exact Hq.
  - cbn [mkdirChain] in H.
    destruct (pathFault cfg d); [injection H as <- <-; exact Hq|].
    destruct (m !! d) as [[c|]|] eqn:Hd.
    + injection H as <- <-. exact Hq.
    + eapply IH; eassumption.
    + destruct (writeFault cfg d); [injection H as <- <-; exact Hq|].
      eapply IH; [exact H|]. rewrite lookup_insert_ne; [exact Hq|congruence].
Qed.

Lemma mkdirChain_files dir chain (m m1 : gmap string Node) o :
  mkdirChain cfg dir chain m = (o, m1) ->
  forall q b, m1 !! q = Some (FileBytes b) -> m !! q = Some (FileBytes b).
Proof.
  revert m. induction chain as [|d rest IH]; intros m H q b Hq.
  - injection H as <- <-. exact Hq.
  - cbn [mkdirChain] in H.
    destruct (pathFault cfg d); [injection H as <- <-; exact Hq|].
    destruct (m !! d) as [[c|]|] eqn:Hd.
    + injection H as <- <-. exact Hq.
    + eapply IH; eassumption.
    + destruct (writeFault cfg d); [injection H as <- <-; exact Hq|].
      specialize (IH _ H q b Hq).
      destruct (decide (d = q)) as [->|Hne].
      * rewrite lookup_insert_eq in IH. discriminate IH.
      * by rewrite lookup_insert_ne in IH.
Qed.

(** After a [mkdir -p] that went through, every directory of the chain
    is one. *)
Lemma mkdirChain_dirs dir chain (m m1 : gmap string Node) :
  mkdirChain cfg dir chain m = (None, m1) ->
  forall d, d ∈ chain -> m1 !! d = Some Dir /\ pathFault cfg d = None.
Proof.
  revert m. induction chain as [|d rest IH]; intros m H d' Hin.
  - by apply elem_of_nil in Hin.
  - cbn [mkdirChain] in H.
    destruct (pathFault cfg d) eqn:Hpf; [discriminate H|].
    destruct (m !! d) as [[c|]|] eqn:Hd; [discriminate H| |].
    + apply elem_of_cons in Hin as [->|Hin]; [|by eapply IH].
      split; [|exact Hpf]. eapply mkdirChain_preserves; eassumption.
    + destruct (writeFault cfg d); [discriminate H|].
      apply elem_of_cons in Hin as [->|Hin]; [|by eapply IH].
      split; [|exact Hpf].
      eapply mkdirChain_preserves; [exact H|]. apply lookup_insert_eq.
Qed.


(** A regular file in the chain makes [mkdir -p] fail. *)
Lemma mkdirChain_blocked dir chain (m : gmap string Node) :
  (exists d b, d ∈ chain /\ m !! d = Some (FileBytes b)) ->
  exists e m1, mkdirChain cfg dir chain m = (Some e, m1).
Proof.
  revert m. induction chain as [|d rest IH]; intros m (d' & b & Hin & Hf).
  - by apply elem_of_nil in Hin.
  - cbn [mkdirChain].
    destruct (pathFault cfg d); [by eexists _, _|].
    destruct (m !! d) as [[c|]|] eqn:Hd.
    + by eexists _, _.
    + apply IH. exists d', b. split; [|exact Hf].
      apply elem_of_cons in Hin as [->|Hin]; [congruence|exact Hin].
    + destruct (writeFault cfg d); [by eexists _, _|].
      apply IH. exists d', b.
      apply elem_of_cons in Hin as [->|Hin]; [congruence|].
      split; [exact Hin|]. rewrite lookup_insert_ne; [exact Hf|congruence].
Qed.

(** A save that returns: without a target nothing happens; with one,
    the extension is a string, the directories are made, [access]
    resolves for the candidates before the one chosen, nothing is at
    the path chosen, and the file is written there. *)
Lemma maybeSaveImage_returns base64 mimeType targetPath w sp w' :
  maybeSaveImage cfg base64 mimeType targetPath w = (inr sp, w') ->
  (truthyO targetPath = false /\ sp = None /\ w' = w)
  \/
  (exists t,
     targetPath = Some t /\ truthy t = true /\
     extensionIsString mimeType t = true /\
     let extension := extensionFor mimeType t in
     let resolved := Path.resolve (cwd cfg) (basePathFor mimeType t) in
     let dir := Path.dirname resolved in
     let name := Path.basename resolved extension in
     exists m1 k,
       mkdirChain cfg dir (dirChain dir) (fs w) = (None, m1) /\
       (forall j, (j < k)%nat ->
                  accessible cfg m1 (candidate dir name extension resolved j) = true) /\
       accessible cfg m1 (candidate dir name extension resolved k) = false /\
       m1 !! candidate dir name extension resolved k = None /\
       pathFault cfg (candidate dir name extension resolved k) = None /\
       throughFile m1 (candidate dir name extension resolved k) = false /\
       sp = Some (candidate dir name extension resolved k) /\
       w' = wFs (<[candidate dir name extension resolved k := File base64]> m1) w).
Proof.
  unfold maybeSaveImage. destruct (truthyO targetPath) eqn:Ht; cbn [negb].
  2:{ intros H. injection H as <- <-. by left. }
  destruct targetPath as [t|]; [|discriminate Ht]. cbn in Ht. cbn [nullish].
  intros H. right. exists t. split; [reflexivity|]. split; [exact Ht|].
  unfold tryCatch, bind, basenameChecked in H.
  destruct (extensionIsString mimeType t); [|discriminate H].
  split; [reflexivity|]. cbv zeta. unfold ret at 1 in H.
  set (extension := extensionFor mimeType t) in *.
  set (resolved := Path.resolve (cwd cfg) (basePathFor mimeType t)) in *.
  set (dir := Path.dirname resolved) in *.
  set (name := Path.basename resolved extension) in *.
  unfold mkdir in H.
  destruct (mkdirChain cfg dir (dirChain dir) (fs w)) as [[e|] m1] eqn:Hmk;
    [discriminate H|].
  unfold resolveCollision in H. cbn [fs wFs] in H.
  destruct (findFreePath cfg _ m1 dir name extension resolved 0) as [q|] eqn:Hq;
    [|discriminate H].
  destruct (findFreePath_Some _ _ _ _ _ _ _ _ Hq) as (k & -> & Hfree & Hbefore).
  change (candidateFrom dir name extension resolved 0 k)
    with (candidate dir name extension resolved k) in *.
  unfold writeFile in H. cbn [fs wFs] in H.
  destruct (pathFault cfg (candidate dir name extension resolved k)) eqn:Hpf;
    [discriminate H|].
  destruct (throughFile m1 (candidate dir name extension resolved k)) eqn:Hthrough;
    [discriminate H|].
  pose proof (accessible_false _ _ Hfree Hpf) as Hnone.
  destruct (negb (exists_ m1 (Path.dirname (candidate dir name extension resolved k))));
    [discriminate H|].
  unfold lookupNode in H.
  destruct (String.eqb (candidate dir name extension resolved k) "/");
    [discriminate H|].
  rewrite Hnone in H.
  destruct (writeFault cfg (candidate dir name extension resolved k));
    [discriminate H|].
  destruct (writeCut cfg (candidate dir name extension resolved k)) as [[code n]|];
    [discriminate H|].
  unfold setFs, ret in H. cbn [fs wFs] in H. injection H as <- <-.
  exists m1, k. repeat split; assumption.
Qed.

(** A save that fails has made directories, and at most the beginning
    of the file, at a path where nothing was. *)
Lemma maybeSaveImage_fails base64 mimeType targetPath w e w' :
  maybeSaveImage cfg base64 mimeType targetPath w = (inl e, w') ->
  name e = "Error" /\
  String.prefix "Failed to save image: " (message e) = true /\
  trace w' = trace w /\
  exists dir chain o m1,
    mkdirChain cfg dir chain (fs w) = (o, m1) /\
    (fs w' = m1 \/
     exists p n,
       m1 !! p = None /\
       fs w' = <[p := FileBytes (String.substring 0 n (Buffer.fromBase64 base64))]> m1).
Proof.
  unfold maybeSaveImage. destruct (truthyO targetPath); cbn [negb]; [|discriminate].
  unfold tryCatch, bind, basenameChecked, throw, mkdir, resolveCollision, writeFile,
    setFs, ret.
  set (dir := Path.dirname _).
  assert (Hpre : forall msg, String.prefix "Failed to save image: "
                               ("Failed to save image: " +:+ msg) = true).
  { intros msg. induction "Failed to save image: " as [|c s IH]; [by destruct msg|].
    rewrite append_cons. cbn [String.prefix]. by destruct (ascii_dec c c). }
  destruct (extensionIsString _ _).
  2:{ intros H. injection H as <- <-.
      split; [reflexivity|]. split; [apply Hpre|]. split; [reflexivity|].
      exists dir, [], None, (fs w). split; [reflexivity|]. by left. }
  destruct (mkdirChain cfg dir (dirChain dir) (fs w)) as [[e0|] m1] eqn:Hmk.
  { intros H. injection H as <- <-.
    split; [reflexivity|]. split; [apply Hpre|]. split; [reflexivity|].
    exists dir, (dirChain dir), (Some e0), m1. split; [exact Hmk|]. by left. }
  assert (Hdone : forall msg,
            name (Error ("Failed to save image: " +:+ msg)) = "Error" /\
            String.prefix "Failed to save image: "
              (message (Error ("Failed to save image: " +:+ msg))) = true /\
            trace (wFs m1 w) = trace w /\
            exists dir chain o m2,
              mkdirChain cfg dir chain (fs w) = (o, m2) /\
              (fs (wFs m1 w) = m2 \/
               exists p n,
                 m2 !! p = None /\
                 fs (wFs m1 w) =
                   <[p := FileBytes (String.substring 0 n (Buffer.fromBase64 base64))]> m2)).
  { intros msg. split; [reflexivity|]. split; [apply Hpre|]. split; [reflexivity|].
    exists dir, (dirChain dir), None, m1. split; [exact Hmk|]. by left. }
  cbn [fs wFs]. destruct (findFreePath cfg _ m1 _ _ _ _ 0) as [p|] eqn:Hq.
  2:{ intros H. injection H as <- <-. apply Hdone. }
  destruct (findFreePath_Some _ _ _ _ _ _ _ _ Hq) as (k & _ & Hfree & _).
  destruct (pathFault cfg p) eqn:Hpf.
  { intros H. injection H as <- <-. apply Hdone. }
  pose proof (accessible_false _ _ Hfree Hpf) as Hnone.
  cbn [fs wFs]. destruct (throughFile m1 p).
  { intros H. injection H as <- <-. apply Hdone. }
  destruct (negb (exists_ m1 (Path.dirname p))).
  { intros H. injection H as <- <-. apply Hdone. }
  destruct (lookupNode m1 p) as [[c|]|];
    try (intros H; injection H as <- <-; apply Hdone);
    (destruct (writeFault cfg p); [intros H; injection H as <- <-; apply Hdone|]);
    (destruct (writeCut cfg p) as [[code n]|]; [|discriminate]);
    intros H; injection H as <- <-;
    (split; [reflexivity|]); (split; [apply Hpre|]); (split; [reflexivity|]);
    exists dir, (dirChain dir), None, m1; (split; [exact Hmk|]);
    right; exists p, n; (split; [exact Hnone|reflexivity]).
Qed.

End PersistenceFacts.

(** ** The claims about saving *)








(** ** The claim about the handlers *)

Lemma bind_inr {A B} (m : Eff A) (k : A -> Eff B) w b w' :
  bind m k w = (inr b, w') ->
  exists a w1, m w = (inr a, w1) /\ k a w1 = (inr b, w').
Proof.
  unfold bind. destruct (m w) as [[e|a] w1]; [discriminate|]. intros H. by exists a, w1.
Qed.

Lemma candidate_truthy cfg dir name extension p k :
  truthy (candidate dir name extension (Path.resolve (cwd cfg) p) k) = true.
Proof.
  destruct k as [|k]; cbn [candidate].
  - reflexivity.
  - unfold truthy. apply negb_true_iff, String.eqb_neq. intros H.
    apply (f_equal String.length) in H. unfold suffixed, Path.join in H.
    destruct (String.eqb dir "/"); rewrite !length_append in H; cbn in H; lia.
Qed.

(** What the continuation of the handlers does with a non-empty result
    list. *)
Lemma respond_cases cfg env wd saveToFilePath first rest w items w' :
  respond cfg env wd saveToFilePath (first :: rest) w = (inr items, w') ->
  let finalSavePath :=
    orElse saveToFilePath
      (if AUTO_SAVE cfg
       then Some (generateDefaultFileName cfg env (toolName wd) (imageMimeType first))
       else None) in
  (truthyO finalSavePath = false /\ w' = w /\
   items = [TextItem (unsavedLead wd +:+ sizeAndFormat first +:+ unsavedTail wd);
            ImageItem (imageMimeType first) (imageBase64 first)])
  \/
  (truthyO finalSavePath = true /\
   exists p,
     maybeSaveImage cfg (imageBase64 first) (imageMimeType first) finalSavePath w
     = (inr (Some p), w') /\
     fs w !! p = None /\
     fs w' !! p = Some (File (imageBase64 first)) /\
     (forall q b, q <> p -> fs w' !! q = Some (FileBytes b) -> fs w !! q = Some (FileBytes b)) /\
     items = [TextItem (savedLead wd +:+ p +:+ sizeAndFormat first
                          +:+ (if negb (truthyO saveToFilePath)
                               then nl +:+ "🔄 Auto-saved (set AUTO_SAVE=false to disable)"
                               else ""))]).
Proof.
  intros H finalSavePath. cbn [respond] in H. fold finalSavePath in H.
  apply bind_inr in H as (savedPath & w1 & Hsave & Hret).
  unfold ret in Hret. injection Hret as <- <-.
  apply maybeSaveImage_returns in Hsave as Hcases.
  destruct Hcases as [(Ht & -> & ->)|(t & Hf & Ht & _ & Hrest)].
  - left. by rewrite Ht.
  - right. rewrite Hf. cbn [truthyO]. split; [exact Ht|].
    cbv zeta in Hrest.
    destruct Hrest as (m1 & k & Hmk & _ & _ & Hnone & _ & _ & -> & ->).
    eexists. split; [rewrite <- Hf; exact Hsave|].
    split; [|split; [|split]].
    + destruct (fs w !! _) as [n|] eqn:Hold; [|reflexivity].
      pose proof (mkdirChain_preserves _ _ _ _ _ _ Hmk _ _ Hold). congruence.
    + cbn. apply lookup_insert_eq.
    + intros q b Hne Hq. cbn [fs wFs] in Hq.
      rewrite lookup_insert_ne in Hq by congruence.
      eapply mkdirChain_files; eassumption.
    + cbn [truthyO nullish]. by rewrite candidate_truthy.
Qed.

(** C10. Each of the four handlers passes the result list of the
    pipeline, which is not empty when the handler succeeds, to the same
    continuation, which uses its first image and no other. A
    successful response either carries the first image as
    its one image item and leaves the world as it was (nothing is
    saved), or carries text only, which names the path of a new file
    that holds the bytes of the first image; every other regular file
    found afterwards was there before, with the same bytes. The images
    after the first do not change the outcome: they are neither saved
    nor reported. *)
Theorem only_first_image_is_used cfg env saveToFilePath first rest w :
  (forall wd,
     respond cfg env wd saveToFilePath (first :: rest) w =
     respond cfg env wd saveToFilePath [first] w) /\
  (forall wd items w',
     respond cfg env wd saveToFilePath (first :: rest) w = (inr items, w') ->
     ((w' = w /\
       exists text,
         items = [TextItem text; ImageItem (imageMimeType first) (imageBase64 first)])
      \/
      (exists p text,
         items = [TextItem text] /\ contains p text = true /\
         fs w !! p = None /\
         fs w' !! p = Some (FileBytes (Buffer.fromBase64 (imageBase64 first))) /\
         forall q b, q <> p -> fs w' !! q = Some (FileBytes b) ->
                     fs w !! q = Some (FileBytes b))) /\
     (forall mt d, ImageItem mt d ∈ items ->
                   mt = imageMimeType first /\ d = imageBase64 first)) /\
  (forall prompt w0 items w',
     generate_image cfg env prompt saveToFilePath w0 = (inr items, w') ->
     exists first' rest' w1,
       callGeminiGenerate cfg env
         {| prompt := prompt; images := None; saveToFilePath := saveToFilePath |} w0
       = (inr (first' :: rest'), w1) /\
       respond cfg env generateWording saveToFilePath (first' :: rest') w1 = (inr items, w')) /\
  (forall prompt image w0 items w',
     edit_image cfg env prompt image saveToFilePath w0 = (inr items, w') ->
     exists first' rest' w1,
       callGeminiGenerate cfg env
         {| prompt := prompt; images := Some [image]; saveToFilePath := None |} w0
       = (inr (first' :: rest'), w1) /\
       respond cfg env editWording saveToFilePath (first' :: rest') w1 = (inr items, w')) /\
  (forall prompt imgs w0 items w',
     compose_images cfg env prompt imgs saveToFilePath w0 = (inr items, w') ->
     exists first' rest' w1,
       callGeminiGenerate cfg env
         {| prompt := prompt; images := Some imgs; saveToFilePath := None |} w0
       = (inr (first' :: rest'), w1) /\
       respond cfg env composeWording saveToFilePath (first' :: rest') w1 = (inr items, w')) /\
  (forall prompt baseImage styleImage w0 items w',
     style_transfer cfg env prompt baseImage styleImage saveToFilePath w0 = (inr items, w') ->
     exists first' rest' w1,
       callGeminiGenerate cfg env
         {| prompt :=
              nullish prompt
                "Apply the style of the second image to the first image while preserving the original content";
            images := Some [baseImage; styleImage]; saveToFilePath := None |} w0
       = (inr (first' :: rest'), w1) /\
       respond cfg env styleWording saveToFilePath (first' :: rest') w1 = (inr items, w')).
Proof.
  split; [reflexivity|]. split.
  { intros wd items w' H.
    destruct (respond_cases cfg env wd saveToFilePath first rest w items w' H)
      as [(_ & -> & ->)|(_ & p & _ & Hold & Hnew & Hothers & ->)].
    - split; [left; split; [reflexivity|by eexists]|].
      intros mt d Hin. apply elem_of_cons in Hin as [Hin|Hin]; [discriminate Hin|].
      apply list_elem_of_singleton in Hin. by injection Hin as -> ->.
    - split.
      + right. exists p. eexists. split; [reflexivity|].
        split; [apply contains_app_r, contains_prefix|].
        split; [exact Hold|]. split; [exact Hnew|exact Hothers].
      + intros mt d Hin. apply list_elem_of_singleton in Hin. discriminate Hin. }
  repeat split.
  - intros prompt w0 items w' H. unfold generate_image, tryCatch, bind in H.
    destruct (callGeminiGenerate _ _ _ w0) as [[e|[|first' rest']] w1];
      [discriminate H|discriminate H|].
    exists first', rest', w1. split; [reflexivity|].
    destruct (respond _ _ _ _ (first' :: rest') w1) as [[e|items'] w2];
      [discriminate H|exact H].
  - intros prompt image w0 items w' H. unfold edit_image, bind in H.
    destruct (callGeminiGenerate _ _ _ w0) as [[e|[|first' rest']] w1];
      [discriminate H|discriminate H|].
    by exists first', rest', w1.
  - intros prompt imgs w0 items w' H. unfold compose_images, bind in H.
    destruct (callGeminiGenerate _ _ _ w0) as [[e|[|first' rest']] w1];
      [discriminate H|discriminate H|].
    by exists first', rest', w1.
  - intros prompt baseImage styleImage w0 items w' H. unfold style_transfer, bind in H.
    destruct (callGeminiGenerate _ _ _ w0) as [[e|[|first' rest']] w1];
      [discriminate H|discriminate H|].
    by exists first', rest', w1.
Qed.

Lemma only_first_image_is_used_witness :
  let res := generate_image Sample.cfg Sample.immediate "a cat" None Sample.world in
  exists p text,
    res.1 = inr [TextItem text] /\
    fs res.2 !! p = Some (FileBytes "ABC") /\
    forall q b, q <> p -> fs res.2 !! q = Some (FileBytes b) -> False.
Proof.
  intros res.
  pose (first := {| imageBase64 := "QUJD"; imageMimeType := "image/jpeg" |}).
  destruct (only_first_image_is_used Sample.cfg Sample.immediate None first [first]
              (wFetch [TextPart "a cat"] Sample.world))
    as (_ & Hsecond & _).
  destruct (Hsecond generateWording
              (match res.1 with inr items => items | inl _ => [] end) res.2
              ltac:(vm_compute; reflexivity))
    as [[[_ (text & Hitems)]|(p & text & Hitems & _ & _ & Hnew & Hothers)] _].
  - vm_compute in Hitems. discriminate Hitems.
  - exists p, text. split; [|split].
    + transitivity (inr (A := JsError)
                      (match res.1 with inr items => items | inl _ => [] end));
        [vm_compute; reflexivity|exact (f_equal inr Hitems)].
    + exact Hnew.
    + intros q b Hne Hq. specialize (Hothers q b Hne Hq).
      vm_compute in Hothers. discriminate Hothers.
Defined.

(** * Further properties of the module *)

(** ** The request pipeline *)

Lemma collectImages_acc parts acc :
  collectImages parts acc = acc ++ omap decodePart parts.
Proof.
  revert acc. induction parts as [|part rest IH]; intros acc.
  - by rewrite app_nil_r.
  - change (omap decodePart (part :: rest))
      with (match decodePart part with
            | Some image => image :: omap decodePart rest
            | None => omap decodePart rest
            end).
    cbn [collectImages]. destruct (decodePart part) as [image|] eqn:Hp;
      unfold decodePart in Hp; destruct (inlineData part) as [d|];
      try destruct (truthyO (data d)); try discriminate Hp; try apply IH.
    injection Hp as <-. rewrite IH. by rewrite <- app_assoc.
Qed.


(** A call that sent a request has a last attempt. *)
Lemma call_last_attempt cfg env request w :
  let res := callGeminiGenerate cfg env request w in
  res.2 = w \/
  exists n, (n <= MAX_RETRIES)%nat /\ lastAttempt w res.2 n /\
            concluded env w res.2 0 n res.1.
Proof.
  intros res. subst res.
  destruct (call_trace cfg env request w) as [Heq|(ps & ds & _ & _ & Hf & Hlen & _)];
    [by left|right].
  exists (length ds). split; [exact Hlen|]. split; [unfold lastAttempt; lia|].
  destruct (call_attempt cfg env request w (length ds)) as [(Hm & _)|Hc].
  - unfold attemptMade. lia.
  - unfold attemptMade in Hm. lia.
  - exact Hc.
Qed.

(** With a credential and inputs that resolve, a request goes out. *)
Lemma call_sends cfg env request w :
  ~ credentialMissing cfg ->
  Forall (fun input => is_Some (resolvedData cfg (fs w) input))
         (nullish (images request) []) ->
  attemptMade w (callGeminiGenerate cfg env request w).2 0.
Proof.
  intros Hkey Hall.
  destruct (callGeminiGenerate_cases cfg env request w)
    as [[Hmiss _]|[(_ & e & He & _)|(_ & ps & _ & Hrun)]].
  - contradiction.
  - exfalso. destruct (images request) as [[|input rest]|]; try discriminate He.
    cbn [nullish] in Hall. unfold toInlineDataParts in He.
    rewrite toInlineDataParts_loop_resolved in He by exact Hall. discriminate He.
  - apply Runs_progress in Hrun. unfold attemptMade. lia.
Qed.

(** X1. Retrying is invisible in the result. When the credential is set
    and the inputs resolve, and the first k requests (k <= MAX_RETRIES)
    are answered with a non-success status and the next one with a
    success status and at least one image, the call returns the images
    of that answer, as it would have on an immediate success, after
    k + 1 requests and k sleeps. *)
Theorem retry_is_transparent cfg env request w k r j :
  ~ credentialMissing cfg ->
  Forall (fun input => is_Some (resolvedData cfg (fs w) input))
         (nullish (images request) []) ->
  (k <= MAX_RETRIES)%nat ->
  (forall i, (i < k)%nat ->
             exists ri, answerTo env w i = Resolved ri /\ ok ri = false) ->
  answerTo env w k = Resolved r ->
  ok r = true ->
  json r = inr j ->
  omap decodePart (firstParts j) <> [] ->
  let res := callGeminiGenerate cfg env request w in
  res.1 = inr (omap decodePart (firstParts j)) /\
  fetchCalls res.2 = (fetchCalls w + S k)%nat /\
  exists t, trace res.2 = trace w ++ t /\ length (sleeps t) = k.
Proof.
  intros Hkey Hall Hk Hfail Hans Hok Hj Hne res. subst res.
  pose proof (call_sends cfg env request w Hkey Hall) as Hzero.
  assert (Hreach : forall i, (i <= k)%nat ->
                             attemptMade w (callGeminiGenerate cfg env request w).2 i).
  { induction i as [|i IH]; intros Hi; [exact Hzero|].
    destruct (call_attempt cfg env request w i (IH ltac:(lia)))
      as [(Hm & _)|(_ & Hc)]; [exact Hm|].
    destruct (Hfail i ltac:(lia)) as (ri & Hri & Hoki).
    rewrite Hri in Hc. cbn in Hc. rewrite Hoki in Hc. cbn in Hc. lia. }
  assert (Hout : attemptOutcome (answerTo env w k)
                 = inr (omap decodePart (firstParts j))).
  { rewrite Hans. cbn. rewrite Hok, Hj, collectImages_acc. cbn [app].
    destruct (omap decodePart (firstParts j)); [congruence|reflexivity]. }
  destruct (call_attempt cfg env request w k (Hreach k ltac:(lia)))
    as [(_ & _ & e & He & _)|(Hl & Hc)]; [congruence|].
  rewrite Hout in Hc. split; [exact Hc|]. split; [unfold lastAttempt in Hl; lia|].
  destruct (call_trace cfg env request w) as [Heq|(ps & ds & _ & Ht & Hf & _)].
  - rewrite Heq in Hl. unfold lastAttempt in Hl. lia.
  - exists (traceOf (TextPart (prompt request) :: ps) ds). split; [exact Ht|].
    rewrite sleeps_traceOf. unfold lastAttempt in Hl. lia.
Qed.

Lemma retry_is_transparent_witness :
  let res := callGeminiGenerate Sample.cfg Scenario.busyThenImage Sample.request Sample.world in
  res.1 = inr [{| imageBase64 := "QUJD"; imageMimeType := "image/jpeg" |}] /\
  fetchCalls res.2 = 4%nat.
Proof.
  intros res.
  assert (Hkey : ~ credentialMissing Sample.cfg).
  { intros [H|H]; discriminate H. }
  assert (Hall : Forall (fun input => is_Some (resolvedData Sample.cfg (fs Sample.world) input))
                        (nullish (images Sample.request) [])) by constructor.
  assert (Hk : (3 <= MAX_RETRIES)%nat) by (unfold MAX_RETRIES; lia).
  assert (Hfail : forall i, (i < 3)%nat ->
            exists ri, answerTo Scenario.busyThenImage Sample.world i = Resolved ri /\
                       ok ri = false).
  { intros [|[|[|i]]] Hi; try lia; eexists; split; reflexivity. }
  destruct (retry_is_transparent Sample.cfg Scenario.busyThenImage Sample.request
              Sample.world 3 _ _ Hkey Hall Hk Hfail eq_refl eq_refl eq_refl)
    as (Hres & Hcalls & _).
  - discriminate.
  - split; [exact Hres|exact Hcalls].
Defined.



(** X3. Failures are reported late. A call that fails has either sent
    no request (credential or input error), or run into the timeout, or
    used up all MAX_RETRIES + 1 = 4 requests: no other failure ends the
    call before the last attempt, whatever the status received. *)
Theorem failure_after_all_attempts cfg env request w e :
  let res := callGeminiGenerate cfg env request w in
  res.1 = inl e ->
  res.2 = w \/
  e = timeoutError \/
  fetchCalls res.2 = (fetchCalls w + 4)%nat.
Proof.
  intros res Hres. subst res.
  destruct (call_last_attempt cfg env request w) as [Heq|(n & _ & Hl & _ & Hc)];
    [by left|right].
  rewrite Hres in Hc. unfold lastAttempt in Hl.
  destruct (attemptOutcome (answerTo env w n)) as [e'|images]; [|discriminate Hc].
  destruct (isAbort e').
  - left. congruence.
  - right. destruct Hc as [Hn _]. unfold MAX_RETRIES in Hn. lia.
Qed.

Lemma failure_after_all_attempts_witness :
  fetchCalls (callGeminiGenerate Sample.cfg Sample.alwaysBusy Sample.request Sample.world).2
  = 4%nat.
Proof.
  destruct (failure_after_all_attempts Sample.cfg Sample.alwaysBusy Sample.request
              Sample.world _ eq_refl) as [H|[H|H]].
  - apply (f_equal fetchCalls) in H. exact (False_ind _ (Nat.neq_succ_0 _ H)).
  - discriminate H.
  - exact H.
Defined.

Lemma inject_Z_plus_1000 x y :
  (x + 1000 <= y)%Z -> (inject_Z x + 1000 <= inject_Z y)%Q.
Proof. intros H. unfold Qle, inject_Z, Qplus. cbn. lia. Qed.

Lemma pow2_step i j : (i < j)%nat -> (2 ^ Z.of_nat i + 1 <= 2 ^ Z.of_nat j)%Z.
Proof.
  intros Hij.
  assert (H1 : (2 ^ Z.of_nat (S i) <= 2 ^ Z.of_nat j)%Z)
    by (apply Z.pow_le_mono_r; lia).
  rewrite Nat2Z.inj_succ, Z.pow_succ_r in H1 by lia.
  assert (H2 : (0 < 2 ^ Z.of_nat i)%Z) by (apply Z.pow_pos_nonneg; lia).
  lia.
Qed.

(** X4. The back-off does not shrink in spite of the jitter: of two
    sleeps of one call, the later is at least as long as the earlier.
    (It can be as long and no longer: with [Math.random] first at the
    largest double below 1 and then at 0, both sleeps are 2000 ms.) *)
Theorem backoff_never_shrinks cfg env request w :
  (forall k, (0 <= random env k)%Q /\ (random env k < 1)%Q) ->
  let res := callGeminiGenerate cfg env request w in
  exists t,
    trace res.2 = trace w ++ t /\
    forall i j d d',
      (i < j)%nat -> sleeps t !! i = Some d -> sleeps t !! j = Some d' -> (d <= d')%Q.
Proof.
  intros Hrand res. subst res.
  destruct (call_trace cfg env request w) as [Heq|(ps & ds & _ & Ht & _ & Hlen & Hds)].
  - exists []. rewrite Heq, app_nil_r. split; [reflexivity|].
    intros i j d d' _ H. discriminate H.
  - exists (traceOf (TextPart (prompt request) :: ps) ds). split; [exact Ht|].
    rewrite sleeps_traceOf. intros i j d d' Hij Hi Hj. unfold MAX_RETRIES in Hlen.
    apply lookup_lt_Some in Hi as Hi'. apply lookup_lt_Some in Hj as Hj'.
    destruct (Hds i d Hi) as [k ->]. destruct (Hds j d' Hj) as [k' ->].
    destruct (delayOf_bounds i (random env k)) as [_ Hup]; [lia|apply Hrand..|].
    destruct (delayOf_bounds j (random env k')) as [Hlow _]; [lia|apply Hrand..|].
    eapply Qle_trans; [exact Hup|].
    eapply Qle_trans; [|exact Hlow].
    apply inject_Z_plus_1000. pose proof (pow2_step i j Hij). lia.
Qed.

Lemma backoff_never_shrinks_witness :
  exists t,
    trace (callGeminiGenerate Sample.cfg Scenario.jitterAtTop Sample.request Sample.world).2
      = t /\
    forall i j d d',
      (i < j)%nat -> sleeps t !! i = Some d -> sleeps t !! j = Some d' -> (d <= d')%Q.
Proof.
  assert (Hrand : forall k, (0 <= random Scenario.jitterAtTop k)%Q /\
                            (random Scenario.jitterAtTop k < 1)%Q).
  { intros k. split; vm_compute; [discriminate|reflexivity]. }
  destruct (backoff_never_shrinks Sample.cfg Scenario.jitterAtTop Sample.request
              Sample.world Hrand) as (t & Ht & Hinc).
  exists t. split; [exact Ht|exact Hinc].
Defined.

(** X5. The back-off of a whole call is short: the sleeps of one call
    add up to at most 10 seconds (7000 ms of exponential base for three
    retries, and at most 1000 ms of jitter each). *)
Theorem total_backoff_at_most_ten_seconds cfg env request w :
  (forall k, (0 <= random env k)%Q /\ (random env k < 1)%Q) ->
  let res := callGeminiGenerate cfg env request w in
  exists t,
    trace res.2 = trace w ++ t /\
    (0 <= totalDelay (sleeps t))%Q /\ (totalDelay (sleeps t) <= 10000)%Q.
Proof.
  intros Hrand res. subst res.
  destruct (call_trace cfg env request w) as [Heq|(ps & ds & _ & Ht & _ & Hlen & Hds)].
  - exists []. rewrite Heq, app_nil_r. split; [reflexivity|]. cbn. split; lra.
  - exists (traceOf (TextPart (prompt request) :: ps) ds). split; [exact Ht|].
    rewrite sleeps_traceOf. unfold MAX_RETRIES in Hlen.
    assert (Hb : forall i d, ds !! i = Some d ->
              (inject_Z (1000 * 2 ^ Z.of_nat i) <= d)%Q /\
              (d <= inject_Z (1000 * 2 ^ Z.of_nat i) + 1000)%Q).
    { intros i d Hd. apply lookup_lt_Some in Hd as Hi.
      destruct (Hds i d Hd) as [k ->].
      apply delayOf_bounds; [lia|apply Hrand..]. }
    destruct ds as [|d0 [|d1 [|d2 [|d3 ds]]]]; cbn in Hlen; try lia; cbn.
    + split; lra.
    + destruct (Hb 0%nat d0 eq_refl) as [L0 U0].
      change (inject_Z (1000 * 2 ^ Z.of_nat 0)) with (1000 # 1)%Q in L0, U0.
      split; lra.
    + destruct (Hb 0%nat d0 eq_refl) as [L0 U0]. destruct (Hb 1%nat d1 eq_refl) as [L1 U1].
      change (inject_Z (1000 * 2 ^ Z.of_nat 0)) with (1000 # 1)%Q in L0, U0.
      change (inject_Z (1000 * 2 ^ Z.of_nat 1)) with (2000 # 1)%Q in L1, U1.
      split; lra.
    + destruct (Hb 0%nat d0 eq_refl) as [L0 U0]. destruct (Hb 1%nat d1 eq_refl) as [L1 U1].
      destruct (Hb 2%nat d2 eq_refl) as [L2 U2].
      change (inject_Z (1000 * 2 ^ Z.of_nat 0)) with (1000 # 1)%Q in L0, U0.
      change (inject_Z (1000 * 2 ^ Z.of_nat 1)) with (2000 # 1)%Q in L1, U1.
      change (inject_Z (1000 * 2 ^ Z.of_nat 2)) with (4000 # 1)%Q in L2, U2.
      split; lra.
Qed.

Lemma total_backoff_at_most_ten_seconds_witness :
  exists t,
    trace (callGeminiGenerate Sample.cfg Scenario.jitterAtTop Sample.request Sample.world).2
      = t /\
    (totalDelay (sleeps t) <= 10000)%Q.
Proof.
  assert (Hrand : forall k, (0 <= random Scenario.jitterAtTop k)%Q /\
                            (random Scenario.jitterAtTop k < 1)%Q).
  { intros k. split; vm_compute; [discriminate|reflexivity]. }
  destruct (total_backoff_at_most_ten_seconds Sample.cfg Scenario.jitterAtTop Sample.request
              Sample.world Hrand) as (t & Ht & _ & Hsum).
  exists t. split; [exact Ht|exact Hsum].
Defined.

(** ** Resolving the input images *)

(** X6. Encoded bytes take precedence over the path. When every input
    carries non-empty [dataBase64], the parts are built from these
    payloads, in order, and no file is looked at: the result is the same
    in every file system, also for inputs whose path leads nowhere. *)
Theorem inline_data_needs_no_file cfg inputs w :
  Forall (fun input => truthyO (dataBase64 input) = true) inputs ->
  toInlineDataParts cfg (Some inputs) w =
  (inr (List.map (fun input =>
                    InlineDataPart (nullish (inputMimeType input) "image/png")
                                   (nullish (dataBase64 input) ""))
                 inputs), w).
Proof.
  intros Hall. destruct inputs as [|input rest]; [reflexivity|].
  unfold toInlineDataParts. rewrite toInlineDataParts_loop_resolved.
  - cbn [app]. f_equal. f_equal. apply map_ext_in. intros i Hi.
    rewrite Forall_forall in Hall. specialize (Hall i ltac:(by apply list_elem_of_In)).
    unfold inlinePartOf, resolvedData. by rewrite Hall.
  - eapply Forall_impl; [exact Hall|]. intros i Hi. cbn in Hi.
    unfold resolvedData. rewrite Hi. destruct (dataBase64 i); [by eexists|discriminate Hi].
Qed.

Lemma inline_data_needs_no_file_witness :
  toInlineDataParts Sample.cfg
    (Some [{| dataBase64 := Some "AAAA"; path := Some "missing.png";
              inputMimeType := None |}]) Sample.world
  = (inr [InlineDataPart "image/png" "AAAA"], Sample.world).
Proof.
  refine (inline_data_needs_no_file Sample.cfg
            [{| dataBase64 := Some "AAAA"; path := Some "missing.png";
                inputMimeType := None |}] Sample.world _).
  repeat constructor.
Defined.




(** ** Saving *)

(** X8. A save that fails leaves what was there alone and cleans
    nothing up. Whatever makes it fail, the error is an [Error] whose
    message starts with "Failed to save image: ", every entry of the
    file system that was there before is there after, unchanged, and no
    request is sent. A regular file found afterwards was there before,
    or it is the beginning of the image, cut short by a write that
    broke off, at a path where nothing was. Directories made before the
    failure stay: a name of more than 255 letters passes [mkdir] and
    fails in [writeFile], and the directory made for it is left behind.
    A regular file where one of the directories of the target should be
    is one way to fail; the message then goes on with "Failed to create
    directory: ". *)
Theorem failed_save_keeps_files cfg base64 mimeType targetPath w :
  let res := maybeSaveImage cfg base64 mimeType targetPath w in
  (forall e, res.1 = inl e ->
     name e = "Error" /\
     String.prefix "Failed to save image: " (message e) = true /\
     (forall q n, fs w !! q = Some n -> fs res.2 !! q = Some n) /\
     (forall q b, fs res.2 !! q = Some (FileBytes b) ->
        fs w !! q = Some (FileBytes b) \/
        (fs w !! q = None /\
         exists n, b = String.substring 0 n (Buffer.fromBase64 base64))) /\
     trace res.2 = trace w) /\
  (forall t,
     targetPath = Some t -> truthy t = true -> extensionIsString mimeType t = true ->
     (exists d b,
        d ∈ dirChain (Path.dirname (Path.resolve (cwd cfg) (basePathFor mimeType t))) /\
        fs w !! d = Some (FileBytes b)) ->
     exists e, res.1 = inl e /\
       String.prefix "Failed to save image: Failed to create directory: " (message e) = true).
Proof.
  intros res. subst res. split.
  - intros e He.
    destruct (maybeSaveImage cfg base64 mimeType targetPath w) as [[e'|sp] w'] eqn:Hsave;
      [|discriminate He].
    cbn in He. injection He as ->. cbn [snd].
    destruct (maybeSaveImage_fails cfg _ _ _ _ _ _ Hsave)
      as (Hname & Hprefix & Htrace & dir & chain & o & m1 & Hmk & Hfs).
    split; [exact Hname|]. split; [exact Hprefix|].
    split; [|split; [|exact Htrace]].
    + intros q n Hq. pose proof (mkdirChain_preserves _ _ _ _ _ _ Hmk _ _ Hq) as Hq1.
      destruct Hfs as [Hfs | (p & k & Hnone & Hfs)]; rewrite Hfs; [exact Hq1|].
      rewrite lookup_insert_ne; [exact Hq1|congruence].
    + intros q b Hq. destruct Hfs as [Hfs | (p & k & Hnone & Hfs)]; rewrite Hfs in Hq.
      * left. eapply mkdirChain_files; eassumption.
      * destruct (decide (p = q)) as [->|Hne].
        -- rewrite lookup_insert_eq in Hq. injection Hq as <-. right.
           split; [|by exists k].
           destruct (fs w !! q) as [n|] eqn:Hold; [|reflexivity].
           pose proof (mkdirChain_preserves _ _ _ _ _ _ Hmk _ _ Hold). congruence.
        -- rewrite lookup_insert_ne in Hq by exact Hne. left.
           eapply mkdirChain_files; eassumption.
  - intros t -> Ht Hstr Hblocked.
    set (dir := Path.dirname (Path.resolve (cwd cfg) (basePathFor mimeType t))) in *.
    destruct (mkdirChain_blocked cfg dir _ _ Hblocked) as (e & m1 & Hmk).
    assert (Hres : maybeSaveImage cfg base64 mimeType (Some t) w =
                   (inl (Error ("Failed to save image: "
                                  +:+ ("Failed to create directory: " +:+ message e))),
                    wFs m1 w)).
    { unfold maybeSaveImage. cbn [truthyO nullish]. rewrite Ht. cbn [negb].
      unfold tryCatch, bind, basenameChecked, mkdir, ret, throw. rewrite Hstr.
      unfold dir in Hmk. cbv beta iota. rewrite Hmk. reflexivity. }
    rewrite Hres. eexists. split; [reflexivity|]. cbn [message Error].
    change ("Failed to save image: " +:+ ("Failed to create directory: " +:+ message e))
      with ("Failed to save image: Failed to create directory: " +:+ message e).
    apply prefix_append.
Qed.

Lemma failed_save_keeps_files_witness :
  let res := maybeSaveImage Scenario.shortNames "QUJD" "image/png"
               (Some Scenario.longTarget) Sample.world in
  (exists e, res.1 = inl e /\ contains "ENAMETOOLONG: name too long, open" (message e) = true) /\
  fs res.2 !! "/srv/app/out" = Some Dir /\
  forall q b, fs res.2 !! q = Some (FileBytes b) ->
    fs Sample.world !! q = Some (FileBytes b) \/
    (fs Sample.world !! q = None /\
     exists n, b = String.substring 0 n (Buffer.fromBase64 "QUJD")).
Proof.
  intros res.
  pose (e := Error ("Failed to save image: ENAMETOOLONG: name too long, open '/srv/app/"
                      +:+ Scenario.longTarget +:+ ".png'")).
  assert (He : res.1 = inl e) by (vm_compute; reflexivity).
  split; [exists e; split; [exact He|vm_compute; reflexivity]|].
  split; [vm_compute; reflexivity|].
  exact (proj1 (proj2 (proj2 (proj2
           (proj1 (failed_save_keeps_files Scenario.shortNames "QUJD" "image/png"
                     (Some Scenario.longTarget) Sample.world) e He))))).
Defined.

(** ** The handlers *)

Lemma call_fs cfg env request w :
  fs (callGeminiGenerate cfg env request w).2 = fs w.
Proof.
  destruct (callGeminiGenerate_cases cfg env request w)
    as [[_ H]|[(_ & e & _ & H)|(_ & ps & _ & Hrun)]]; try by rewrite H.
  by eapply Runs_fs.
Qed.

(** X10. Image data or a file, never both. A successful response of the
    handlers' continuation is either the text and the first image, with
    the world untouched (no path given and auto-save off), or the text
    alone, naming the path of a new file that holds the first image: the
    path did not exist before, so nothing was overwritten, and the
    response then carries no image data. *)
Theorem response_has_image_or_file cfg env wd saveToFilePath first rest w items w' :
  respond cfg env wd saveToFilePath (first :: rest) w = (inr items, w') ->
  (truthyO saveToFilePath = false /\ AUTO_SAVE cfg = false /\ w' = w /\
   exists text, items = [TextItem text;
                         ImageItem (imageMimeType first) (imageBase64 first)])
  \/
  (exists p text,
     items = [TextItem text] /\ contains p text = true /\
     fs w !! p = None /\ fs w' !! p = Some (File (imageBase64 first))).
Proof.
  intros H. destruct (respond_cases cfg env wd saveToFilePath first rest w items w' H)
    as [(Ht & -> & ->)|(Ht & p & _ & Hold & Hnew & _ & ->)].
  - left. unfold orElse in Ht.
    destruct (truthyO saveToFilePath) eqn:Hs; [congruence|].
    destruct (AUTO_SAVE cfg) eqn:Ha.
    + exfalso. cbn in Ht. unfold truthy in Ht. apply negb_false_iff, String.eqb_eq in Ht.
      apply (f_equal String.length) in Ht. unfold generateDefaultFileName in Ht.
      rewrite !length_append in Ht. cbn in Ht. lia.
    + repeat split. by eexists.
  - right. exists p. eexists. split; [reflexivity|]. split; [|by split].
    apply contains_app_r, contains_prefix.
Qed.

Lemma response_has_image_or_file_witness :
  exists text,
    (respond Scenario.noAutoSave Sample.immediate generateWording None
       [{| imageBase64 := "QUJD"; imageMimeType := "image/jpeg" |}] Sample.world).1
    = inr [TextItem text; ImageItem "image/jpeg" "QUJD"].
Proof.
  pose (first := {| imageBase64 := "QUJD"; imageMimeType := "image/jpeg" |}).
  destruct (response_has_image_or_file Scenario.noAutoSave Sample.immediate generateWording
              None first [] Sample.world _ _ eq_refl)
    as [(_ & _ & _ & text & Hitems)|(p & text & Hitems & _)].
  - exists text. exact (f_equal inr Hitems).
  - discriminate Hitems.
Defined.

Lemma respond_fs_without_save cfg env wd saveToFilePath results w :
  AUTO_SAVE cfg = false -> truthyO saveToFilePath = false ->
  (respond cfg env wd saveToFilePath results w).2 = w.
Proof.
  intros Ha Hs. destruct results as [|first rest]; [reflexivity|].
  cbn [respond]. rewrite Ha. unfold orElse. rewrite Hs.
  unfold bind, maybeSaveImage. reflexivity.
Qed.

Lemma bind_call_fs_without_save cfg env wd saveToFilePath request w :
  AUTO_SAVE cfg = false -> truthyO saveToFilePath = false ->
  fs (bind (callGeminiGenerate cfg env request) (respond cfg env wd saveToFilePath) w).2
  = fs w.
Proof.
  intros Ha Hs. unfold bind.
  pose proof (call_fs cfg env request w) as Hfs.
  destruct (callGeminiGenerate cfg env request w) as [[e|results] w1]; [exact Hfs|].
  pose proof (respond_fs_without_save cfg env wd saveToFilePath results w1 Ha Hs) as Hr.
  destruct (respond cfg env wd saveToFilePath results w1) as [[e|items] w2];
    cbn in Hr; subst w2; exact Hfs.
Qed.

(** X11. With auto-save off and no path in the call, none of the four
    tools touches the file system, whether the call succeeds or
    fails. *)
Theorem tools_without_save_leave_files cfg env saveToFilePath w :
  AUTO_SAVE cfg = false ->
  truthyO saveToFilePath = false ->
  (forall prompt, fs (generate_image cfg env prompt saveToFilePath w).2 = fs w) /\
  (forall prompt image, fs (edit_image cfg env prompt image saveToFilePath w).2 = fs w) /\
  (forall prompt imgs, fs (compose_images cfg env prompt imgs saveToFilePath w).2 = fs w) /\
  (forall prompt baseImage styleImage,
     fs (style_transfer cfg env prompt baseImage styleImage saveToFilePath w).2 = fs w).
Proof.
  intros Ha Hs. split; [|split; [|split]].
  - intros prompt. unfold generate_image, tryCatch.
    pose proof (bind_call_fs_without_save cfg env generateWording saveToFilePath
                  {| prompt := prompt; images := None; saveToFilePath := saveToFilePath |}
                  w Ha Hs) as H.
    destruct (bind _ _ w) as [[e|items] w1]; exact H.
  - intros prompt image. by apply bind_call_fs_without_save.
  - intros prompt imgs. by apply bind_call_fs_without_save.
  - intros prompt baseImage styleImage. by apply bind_call_fs_without_save.
Qed.

Lemma tools_without_save_leave_files_witness :
  fs (generate_image Scenario.noAutoSave Sample.immediate "a cat" None Sample.world).2 = ∅.
Proof.
  exact (proj1 (tools_without_save_leave_files Scenario.noAutoSave Sample.immediate None
                  Sample.world eq_refl eq_refl) "a cat").
Defined.

(** X12. Only generate_image rewrites errors. A failure of the pipeline
    reaches the caller of edit_image, compose_images and style_transfer
    as it is; generate_image replaces it by a new error whose message is
    "Failed to generate image: " followed by the original message. Every
    failure of generate_image has this form. *)
Theorem only_generate_wraps_errors cfg env saveToFilePath w :
  (forall prompt e w',
     generate_image cfg env prompt saveToFilePath w = (inl e, w') ->
     name e = "Error" /\
     String.prefix "Failed to generate image: " (message e) = true) /\
  (forall prompt e0 w1,
     callGeminiGenerate cfg env
       {| prompt := prompt; images := None; saveToFilePath := saveToFilePath |} w
     = (inl e0, w1) ->
     generate_image cfg env prompt saveToFilePath w =
     (inl (Error ("Failed to generate image: " +:+ message e0)), w1)) /\
  (forall prompt image e0 w1,
     callGeminiGenerate cfg env
       {| prompt := prompt; images := Some [image]; saveToFilePath := None |} w
     = (inl e0, w1) ->
     edit_image cfg env prompt image saveToFilePath w = (inl e0, w1)) /\
  (forall prompt imgs e0 w1,
     callGeminiGenerate cfg env
       {| prompt := prompt; images := Some imgs; saveToFilePath := None |} w
     = (inl e0, w1) ->
     compose_images cfg env prompt imgs saveToFilePath w = (inl e0, w1)) /\
  (forall prompt baseImage styleImage e0 w1,
     callGeminiGenerate cfg env
       {| prompt :=
            nullish prompt
              "Apply the style of the second image to the first image while preserving the original content";
          images := Some [baseImage; styleImage]; saveToFilePath := None |} w
     = (inl e0, w1) ->
     style_transfer cfg env prompt baseImage styleImage saveToFilePath w = (inl e0, w1)).
Proof.
  split; [|split; [|split; [|split]]].
  - intros prompt e w' H. unfold generate_image, tryCatch, throw in H.
    destruct (bind _ _ w) as [[e0|items] w1]; [|discriminate H].
    injection H as <- <-. split; [reflexivity|]. apply prefix_append.
  - intros prompt e0 w1 H. unfold generate_image, tryCatch, bind. by rewrite H.
  - intros prompt image e0 w1 H. unfold edit_image, bind. by rewrite H.
  - intros prompt imgs e0 w1 H. unfold compose_images, bind. by rewrite H.
  - intros prompt baseImage styleImage e0 w1 H. unfold style_transfer, bind. by rewrite H.
Qed.

Lemma only_generate_wraps_errors_witness :
  (generate_image Sample.cfg Sample.timesOut "a cat" None Sample.world).1
  = inl (Error "Failed to generate image: Request timed out after 60 seconds").
Proof.
  exact (f_equal fst
           (proj1 (proj2 (only_generate_wraps_errors Sample.cfg Sample.timesOut None
                            Sample.world))
              "a cat" timeoutError (wFetch [TextPart "a cat"] Sample.world) eq_refl)).
Defined.

(** ** Input validation *)

(** X13. The size check on encoded input is two bytes short of the
    limit it is derived from: the padded base64 text of an image of n
    bytes passes [validateBase64Size] exactly when n <= MAX_IMAGE_SIZE - 2.
    An image of exactly 20 MB (20971520 bytes) is refused. *)
Theorem base64_size_limit base64 n :
  (0 <= n)%Z ->
  Z.of_nat (String.length base64) = base64Length n ->
  (validateBase64Size base64 = true <-> (n <= MAX_IMAGE_SIZE - 2)%Z) /\
  MAX_BASE64_SIZE = 27962027%Z /\ MAX_IMAGE_SIZE = 20971520%Z.
Proof.
  intros Hn Hlen. split; [|split; reflexivity].
  unfold validateBase64Size. rewrite Hlen. unfold base64Length.
  change MAX_BASE64_SIZE with 27962027%Z. change MAX_IMAGE_SIZE with 20971520%Z.
  rewrite Z.leb_le. split; intros H.
  - assert ((n + 2) / 3 <= 6990506)%Z by lia.
    pose proof (Z.div_mod (n + 2) 3 ltac:(lia)).
    pose proof (Z.mod_pos_bound (n + 2) 3 ltac:(lia)). lia.
  - assert ((n + 2) / 3 <= 20971520 / 3)%Z by (apply Z.div_le_mono; lia).
    change (20971520 / 3)%Z with 6990506%Z in *. lia.
Qed.

Lemma base64_size_limit_witness :
  validateBase64Size "QUJD" = true <-> (3 <= MAX_IMAGE_SIZE - 2)%Z.
Proof.
  exact (proj1 (base64_size_limit "QUJD" 3 ltac:(lia) eq_refl)).
Defined.

Lemma lowerAscii_idem c : lowerAscii (lowerAscii c) = lowerAscii c.
Proof. destruct c as [[] [] [] [] [] [] [] []]; reflexivity. Qed.

Lemma toLowerCase_idem s : toLowerCase (toLowerCase s) = toLowerCase s.
Proof.
  induction s as [|c s IH]; [reflexivity|]. cbn. by rewrite lowerAscii_idem, IH.
Qed.

(** X14. The MIME check ignores case, and the types it accepts are the
    keys of the extension table of the save: a MIME type accepted by
    [validateMimeType] never falls back to the default extension, its
    extension is the one listed for it. *)
Theorem valid_mime_has_extension mimeType :
  validateMimeType (toLowerCase mimeType) = validateMimeType mimeType /\
  (validateMimeType mimeType = true ->
   exists ext,
     mimeToExt !! toLowerCase mimeType = Some ext /\
     detectedExt mimeType = ext /\
     ext ∈ [".png"; ".jpg"; ".webp"; ".gif"]).
Proof.
  split.
  - unfold validateMimeType. by rewrite toLowerCase_idem.
  - unfold validateMimeType, detectedExt, ALLOWED_MIME_TYPES. cbn [existsb].
    intros H. repeat (apply orb_true_iff in H as [H|H]); try discriminate H;
      apply String.eqb_eq in H; rewrite H; eexists;
      (split; [vm_compute; reflexivity|split; [vm_compute; reflexivity|]]);
      repeat first [by left | right].
Qed.

Lemma valid_mime_has_extension_witness :
  exists ext, detectedExt "IMAGE/WebP" = ext /\ ext ∈ [".png"; ".jpg"; ".webp"; ".gif"].
Proof.
  destruct (proj2 (valid_mime_has_extension "IMAGE/WebP") eq_refl) as (ext & _ & H1 & H2).
  exists ext. split; assumption.
Defined.

(** *** Paths *)

Lemma append_assoc_s a b c : (a +:+ b) +:+ c = a +:+ (b +:+ c).
Proof.
  induction a as [|x a IH]; [reflexivity|]. by rewrite !append_cons, IH.
Qed.

Lemma splitOn_nonempty sep s : splitOn sep s <> [].
Proof.
  destruct s as [|c s]; cbn; [discriminate|].
  destruct (Ascii.eqb c sep); [discriminate|]. by destruct (splitOn sep s).
Qed.

Lemma splitOn_app sep a b :
  splitOn sep (a +:+ String sep b) = splitOn sep a ++ splitOn sep b.
Proof.
  induction a as [|c a IH].
  - change ("" +:+ String sep b) with (String sep b). cbn [splitOn].
    by rewrite Ascii.eqb_refl.
  - rewrite append_cons. cbn [splitOn]. rewrite IH.
    destruct (Ascii.eqb c sep); [reflexivity|].
    pose proof (splitOn_nonempty sep a). by destruct (splitOn sep a).
Qed.

Lemma splitOn_head_prefix sep s h t :
  splitOn sep s = h :: t -> String.prefix h s = true.
Proof.
  revert h t. induction s as [|c s IH]; intros h t H; cbn [splitOn] in H.
  - by injection H as <- <-.
  - destruct (Ascii.eqb c sep).
    + by injection H as <- <-.
    + destruct (splitOn sep s) as [|h' t'] eqn:Hs; injection H as <- <-.
      * by destruct (splitOn_nonempty sep s).
      * cbn [String.prefix]. destruct (ascii_dec c c); [by eapply IH|congruence].
Qed.

(** Every piece of a split is a substring of what was split. *)
Lemma splitOn_contains sep s piece :
  piece ∈ splitOn sep s -> contains piece s = true.
Proof.
  induction s as [|c s IH]; intros Hin.
  - cbn in Hin. apply list_elem_of_singleton in Hin as ->. reflexivity.
  - assert (Hlater : piece ∈ splitOn sep s -> contains piece (String c s) = true).
    { intros H. cbn [contains]. rewrite (IH H). apply orb_true_r. }
    cbn [splitOn] in Hin. destruct (Ascii.eqb c sep).
    + apply elem_of_cons in Hin as [->|Hin]; [reflexivity|by apply Hlater].
    + destruct (splitOn sep s) as [|h t] eqn:Hs.
      * by destruct (splitOn_nonempty sep s).
      * apply elem_of_cons in Hin as [->|Hin].
        -- apply contains_of_prefix. cbn [String.prefix].
           destruct (ascii_dec c c); [|congruence].
           by eapply splitOn_head_prefix.
        -- apply Hlater. by right.
Qed.

Lemma normalize_extends segs acc :
  ".." ∉ segs ->
  exists more, fold_left Path.pushSegment segs acc = acc ++ more.
Proof.
  revert acc. induction segs as [|seg rest IH]; intros acc Hno.
  - exists []. by rewrite app_nil_r.
  - cbn [fold_left]. apply not_elem_of_cons in Hno as [Hseg Hrest].
    unfold Path.pushSegment at 2.
    destruct (String.eqb seg "" || String.eqb seg "."); [by apply IH|].
    destruct (String.eqb seg "..") eqn:Hdd.
    { apply String.eqb_eq in Hdd. congruence. }
    destruct (IH (acc ++ [seg]) Hrest) as [more ->].
    exists (seg :: more). by rewrite <- app_assoc.
Qed.

Lemma joinWith_extends sep acc more :
  exists rest, joinWith sep (acc ++ more) = joinWith sep acc +:+ rest.
Proof.
  induction acc as [|x acc IH].
  - by exists (joinWith sep more).
  - destruct IH as [rest IH]. destruct acc as [|y acc].
    + cbn [app joinWith]. destruct more as [|z more].
      * exists "". by rewrite append_nil_r.
      * by eexists.
    + exists rest. change ((x :: y :: acc) ++ more) with (x :: (y :: acc) ++ more).
      change (joinWith sep (x :: (y :: acc) ++ more))
        with (x +:+ sep +:+ joinWith sep ((y :: acc) ++ more)).
      rewrite IH. cbn [joinWith]. by rewrite !append_assoc_s.
Qed.

(** X15. Every relative path without ".." and without "~" in it passes
    [validateFilePath]; a path that contains ".." or "~" anywhere - also
    inside a file name, or as the home directory of the default save
    directory - is refused, wherever it leads. *)
Theorem relative_paths_are_accepted cfg path :
  (Path.isAbsolute path = false ->
   contains ".." path = false ->
   contains "~" path = false ->
   validateFilePath cfg path = true) /\
  (contains ".." path = true \/ contains "~" path = true ->
   validateFilePath cfg path = false).
Proof.
  split.
  - intros Hrel Hdd Htilde. unfold validateFilePath. rewrite Hdd, Htilde. cbn [negb].
    rewrite !andb_true_r. unfold Path.resolve. rewrite Hrel.
    change (Path.isAbsolute ".") with false. cbv iota.
    change (cwd cfg +:+ "/" +:+ ".") with (cwd cfg +:+ String "/" ".").
    change (cwd cfg +:+ "/" +:+ path) with (cwd cfg +:+ String "/" path).
    unfold Path.normalizeSegments, Path.segments. rewrite !splitOn_app, !fold_left_app.
    change (fold_left Path.pushSegment (splitOn "/" ".")
              (fold_left Path.pushSegment (splitOn "/" (cwd cfg)) []))
      with (fold_left Path.pushSegment (splitOn "/" (cwd cfg)) []).
    set (base := fold_left Path.pushSegment (splitOn "/" (cwd cfg)) []).
    destruct (normalize_extends (splitOn "/" path) base) as [more ->].
    { intros Hin. apply splitOn_contains in Hin. congruence. }
    destruct (joinWith_extends "/" base more) as [rest Hrest].
    unfold Path.fromSegments. rewrite Hrest, <- append_assoc_s. apply prefix_append.
  - intros H. unfold validateFilePath.
    destruct H as [-> | ->]; cbn [negb]; by rewrite ?andb_false_r.
Qed.

Lemma relative_paths_are_accepted_witness :
  validateFilePath Sample.cfg "out/cat.png" = true /\
  validateFilePath Sample.cfg "~/Downloads/cat.png" = false.
Proof.
  split.
  - exact (proj1 (relative_paths_are_accepted Sample.cfg "out/cat.png")
             eq_refl eq_refl eq_refl).
  - exact (proj2 (relative_paths_are_accepted Sample.cfg "~/Downloads/cat.png")
             (or_intror eq_refl)).
Defined.

(** ** Saving and reading back *)

(** *** Base64 *)

Lemma sextetChar_inv v :
  (v < 64)%N ->
  Buffer.unbase64 (Buffer.sextetChar v) = Some v /\
  Ascii.eqb (Buffer.sextetChar v) "=" = false.
Proof.
  intros Hv. rewrite <- (N2Nat.id v).
  assert (Hn : (N.to_nat v < 64)%nat) by lia.
  generalize dependent (N.to_nat v). clear. intros n Hn.
  do 64 (destruct n as [|n]; [split; vm_compute; reflexivity|]). lia.
Qed.

Lemma sextetsOf_cons v r :
  (v < 64)%N ->
  Buffer.sextetsOf (String (Buffer.sextetChar v) r) = v :: Buffer.sextetsOf r.
Proof.
  intros Hv. destruct (sextetChar_inv v Hv) as [Hu He].
  cbn [Buffer.sextetsOf]. by rewrite He, Hu.
Qed.

Lemma N_of_ascii_bound c : (N_of_ascii c < 256)%N.
Proof. destruct c as [[] [] [] [] [] [] [] []]; vm_compute; reflexivity. Qed.

Lemma ascii_of_N_eq n c : n = N_of_ascii c -> ascii_of_N n = c.
Proof. intros ->. apply ascii_N_embedding. Qed.

(** Decoding the base64 text of a buffer gives the buffer back. *)
Lemma fromBase64_toBase64 bytes : Buffer.fromBase64 (Buffer.toBase64 bytes) = bytes.
Proof.
  unfold Buffer.fromBase64.
  assert (H : forall n bytes, (String.length bytes <= n)%nat ->
                Buffer.bytesOfSextets (Buffer.sextetsOf (Buffer.toBase64 bytes)) = bytes).
  2:{ by apply (H (String.length bytes)). }
  clear bytes. intros n. induction n as [n IH] using lt_wf_ind. intros bytes Hlen.
  destruct bytes as [|a [|b [|c r]]].
  - reflexivity.
  - pose proof (N_of_ascii_bound a) as Ha.
    cbn [Buffer.toBase64]. cbv zeta.
    rewrite !sextetsOf_cons by div_lia.
    cbn [Buffer.sextetsOf Ascii.eqb Bool.eqb]. cbn [Buffer.bytesOfSextets].
    f_equal. apply ascii_of_N_eq. div_lia.
  - pose proof (N_of_ascii_bound a) as Ha. pose proof (N_of_ascii_bound b) as Hb.
    cbn [Buffer.toBase64]. cbv zeta.
    rewrite !sextetsOf_cons by div_lia.
    cbn [Buffer.sextetsOf Ascii.eqb Bool.eqb]. cbn [Buffer.bytesOfSextets]. cbv zeta.
    f_equal; [|f_equal]; apply ascii_of_N_eq; div_lia.
  - pose proof (N_of_ascii_bound a) as Ha. pose proof (N_of_ascii_bound b) as Hb.
    pose proof (N_of_ascii_bound c) as Hc.
    cbn [Buffer.toBase64]. cbv zeta.
    rewrite !sextetsOf_cons by div_lia.
    cbn [Buffer.bytesOfSextets]. cbv zeta.
    rewrite (IH (String.length r)); [|cbn in Hlen; lia|lia].
    f_equal; [|f_equal; [|f_equal]]; apply ascii_of_N_eq; div_lia.
Qed.

(** *** A path is longer than the directories on the way to it *)

(** The length of a path, counted over its pieces: every piece and one
    separator. *)
Lemma splitOn_weight sep s :
  list_sum (List.map (fun x => S (String.length x)) (splitOn sep s)) = S (String.length s).
Proof.
  unfold list_sum. induction s as [|c r IH]; [reflexivity|]. cbn [splitOn].
  destruct (Ascii.eqb c sep).
  - cbn [List.map fold_right String.length] in *. lia.
  - pose proof (splitOn_nonempty sep r) as Hne.
    destruct (splitOn sep r) as [|h t]; [done|].
    cbn [List.map fold_right String.length] in *. lia.
Qed.

Lemma weight_filter (f : string -> nat) (p : string -> bool) l :
  (list_sum (List.map f (List.filter p l)) <= list_sum (List.map f l))%nat.
Proof.
  unfold list_sum. induction l as [|x l IH]; [reflexivity|]. cbn [List.filter].
  destruct (p x); cbn [List.map fold_right]; lia.
Qed.

Lemma weight_prefixes (f : string -> nat) l pre :
  In pre (prefixes l) ->
  pre <> [] /\ (list_sum (List.map f pre) <= list_sum (List.map f l))%nat.
Proof.
  unfold list_sum. revert pre.
  induction l as [|x l IH]; intros pre Hin; [destruct Hin|].
  cbn [prefixes] in Hin. destruct Hin as [<-|Hin].
  - split; [discriminate|]. cbn [List.map fold_right]. lia.
  - apply in_map_iff in Hin as (pre' & <- & Hin').
    destruct (IH pre' Hin') as [_ Hle]. split; [discriminate|].
    cbn [List.map fold_right]. lia.
Qed.

Lemma fromSegments_length l :
  l <> [] ->
  String.length (Path.fromSegments l) = list_sum (List.map (fun x => S (String.length x)) l).
Proof.
  intros Hne. unfold Path.fromSegments, list_sum. rewrite length_append.
  cbn [String.length].
  induction l as [|x l IH]; [done|].
  destruct l as [|y l].
  - cbn [joinWith List.map fold_right]. lia.
  - specialize (IH ltac:(discriminate)).
    change (joinWith "/" (x :: y :: l)) with (x +:+ "/" +:+ joinWith "/" (y :: l)).
    rewrite !length_append. cbn [List.map fold_right String.length] in *. lia.
Qed.

Lemma weight_removelast (f : string -> nat) l d :
  l <> [] ->
  list_sum (List.map f l) = (list_sum (List.map f (removelast l)) + f (List.last l d))%nat.
Proof.
  intros Hne. unfold list_sum. induction l as [|x l IH]; [done|].
  destruct l as [|y l]; [cbn; lia|].
  specialize (IH ltac:(discriminate)).
  change (removelast (x :: y :: l)) with (x :: removelast (y :: l)).
  change (List.last (x :: y :: l) d) with (List.last (y :: l) d).
  cbn [List.map fold_right] in *. lia.
Qed.

Lemma last_filter_truthy l :
  List.filter truthy l <> [] -> truthy (List.last (List.filter truthy l) "") = true.
Proof.
  intros Hne.
  assert (Hall : forall x, In x (List.filter truthy l) -> truthy x = true).
  { intros x Hx. by apply filter_In in Hx as [_ Hx]. }
  induction (List.filter truthy l) as [|x t IH]; [done|].
  destruct t as [|y t]; [apply Hall; by left|].
  apply IH; [discriminate|]. intros z Hz. apply Hall. by right.
Qed.

(** Every directory on the way to [p] has a shorter name than [p]. *)
Lemma dirChain_shorter p d :
  d ∈ dirChain (Path.dirname p) -> (String.length d < String.length p)%nat.
Proof.
  unfold dirChain, Path.dirname. intros Hd.
  apply list_elem_of_In, in_map_iff in Hd as (pre & <- & Hpre).
  set (S0 := List.filter truthy (Path.segments p)) in *.
  set (f := fun x => S (String.length x)).
  change (List.filter truthy (Path.segments (Path.fromSegments (removelast S0))))
    with (List.filter truthy (splitOn "/" (joinWith "/" (removelast S0)))) in Hpre.
  destruct (weight_prefixes f _ _ Hpre) as [Hne Hle].
  rewrite fromSegments_length by exact Hne. fold f.
  pose proof (weight_filter f truthy (splitOn "/" (joinWith "/" (removelast S0)))) as Hfil.
  unfold f at 2 in Hfil. rewrite splitOn_weight in Hfil.
  pose proof (splitOn_weight "/" p) as Hp.
  pose proof (weight_filter f truthy (Path.segments p)) as Hfp.
  fold S0 in Hfp. unfold f at 2, Path.segments in Hfp. rewrite Hp in Hfp.
  destruct (removelast S0) as [|x rl] eqn:Hrl.
  - cbn in Hpre. destruct Hpre.
  - assert (HS0 : S0 <> []) by (intros H0; rewrite H0 in Hrl; discriminate Hrl).
    rewrite (weight_removelast f S0 "" HS0), Hrl in Hfp.
    pose proof (last_filter_truthy (Path.segments p) HS0) as Hlast. fold S0 in Hlast.
    assert (Hpos : (2 <= f (List.last S0 ""))%nat).
    { unfold f. destruct (List.last S0 ""); [discriminate Hlast|]. cbn. lia. }
    assert (Hj : S (String.length (joinWith "/" (x :: rl))) = list_sum (List.map f (x :: rl))).
    { pose proof (fromSegments_length (x :: rl) ltac:(discriminate)) as HD.
      unfold Path.fromSegments in HD. rewrite length_append in HD. exact HD. }
    lia.
Qed.

Lemma throughFile_insert (m : gmap string Node) p n :
  throughFile m p = false -> throughFile (<[p := n]> m) p = false.
Proof.
  unfold throughFile. intros H.
  destruct (existsb (isFile (<[p := n]> m)) _) eqn:E; [|reflexivity]. exfalso.
  apply existsb_exists in E as (d & Hin & Hd).
  assert (Hne : p <> d).
  { intros ->. apply list_elem_of_In, dirChain_shorter in Hin. lia. }
  unfold isFile in Hd. rewrite lookup_insert_ne in Hd by exact Hne.
  assert (Ht : existsb (isFile m) (dirChain (Path.dirname p)) = true).
  { apply existsb_exists. by exists d. }
  congruence.
Qed.

(** X9. Save and read back. After a save that returns a path, the file
    at that path holds the bytes the payload decodes to, and reading it
    as an input image does gives the base64 text of these bytes: the
    payload itself when the payload is the base64 text of some bytes,
    and the padded text otherwise (the payload QQ reads back as QQ==).
    Every directory on the way to the target is a directory. *)
Theorem saved_file_reads_back cfg base64 mimeType targetPath w p :
  let res := maybeSaveImage cfg base64 mimeType targetPath w in
  res.1 = inr (Some p) ->
  fs res.2 !! p = Some (FileBytes (Buffer.fromBase64 base64)) /\
  readFile cfg p res.2 = (inr (Buffer.toBase64 (Buffer.fromBase64 base64)), res.2) /\
  (forall bytes, base64 = Buffer.toBase64 bytes ->
                 readFile cfg p res.2 = (inr base64, res.2)) /\
  forall d,
    d ∈ dirChain (Path.dirname (Path.resolve (cwd cfg)
                    (basePathFor mimeType (nullish targetPath "")))) ->
    fs res.2 !! d = Some Dir.
Proof.
  intros res Hres. subst res.
  destruct (maybeSaveImage cfg base64 mimeType targetPath w) as [[e|sp] w'] eqn:Hsave;
    [discriminate Hres|].
  cbn in Hres. injection Hres as ->. cbn [snd].
  apply maybeSaveImage_returns in Hsave
    as [(_ & Hn & _)|(t & -> & _ & _ & Hrest)]; [discriminate Hn|].
  cbv zeta in Hrest. cbn [nullish].
  destruct Hrest as (m1 & k & Hmk & _ & Hfree & Hnone & Hpf & Hthrough & Hp & ->).
  injection Hp as ->. cbn [fs wFs].
  set (q := candidate _ _ _ _ k) in *.
  assert (Hread : readFile cfg q (wFs (<[q := File base64]> m1) w) =
                  (inr (Buffer.toBase64 (Buffer.fromBase64 base64)),
                   wFs (<[q := File base64]> m1) w)).
  { unfold readFile, readOutcome. cbn [fs wFs]. rewrite Hpf.
    rewrite throughFile_insert by exact Hthrough.
    unfold lookupNode. unfold accessible in Hfree. rewrite Hpf in Hfree.
    unfold exists_ in Hfree. apply orb_false_elim in Hfree as [-> _].
    by rewrite lookup_insert_eq. }
  split; [apply lookup_insert_eq|]. split; [exact Hread|]. split.
  - intros bytes ->. rewrite Hread. by rewrite fromBase64_toBase64.
  - intros d Hd. destruct (mkdirChain_dirs _ _ _ _ _ Hmk d Hd) as [Hdir _].
    rewrite lookup_insert_ne; [exact Hdir|]. intros <-. congruence.
Qed.

Lemma saved_file_reads_back_witness :
  let res := maybeSaveImage Sample.cfg "QQ" "image/png" (Some "out/cat.png") Sample.world in
  readFile Sample.cfg "/srv/app/out/cat.png" res.2 = (inr "QQ==", res.2).
Proof.
  intros res.
  exact (proj1 (proj2 (saved_file_reads_back Sample.cfg "QQ" "image/png" (Some "out/cat.png")
                         Sample.world "/srv/app/out/cat.png" eq_refl))).
Defined.

(** ** The HTTP front *)

Lemma totalSizeOf_nonneg chunks : (0 <= totalSizeOf chunks)%Z.
Proof.
  induction chunks as [|c chunks IH]; [reflexivity|].
  change (totalSizeOf (c :: chunks))
    with (Z.of_nat (String.length c) + totalSizeOf chunks)%Z.
  lia.
Qed.

(** The reading loop in closed form: it gives up exactly when the whole
    body is larger than the limit. *)
Lemma readChunks_spec stream chunks totalSize :
  (totalSize <= MAX_BODY_SIZE)%Z ->
  readChunks stream chunks totalSize =
  if (totalSize + totalSizeOf stream >? MAX_BODY_SIZE)%Z then None
  else Some (chunks ++ stream).
Proof.
  revert chunks totalSize.
  induction stream as [|chunk rest IH]; intros chunks totalSize Hinv.
  - cbn [readChunks totalSizeOf foldr]. rewrite app_nil_r.
    destruct (Z.gtb_spec (totalSize + 0) MAX_BODY_SIZE); [lia|reflexivity].
  - cbn [readChunks]. change (totalSizeOf (chunk :: rest))
      with (Z.of_nat (String.length chunk) + totalSizeOf rest)%Z.
    pose proof (totalSizeOf_nonneg rest).
    destruct (Z.gtb_spec (totalSize + Z.of_nat (String.length chunk)) MAX_BODY_SIZE).
    + destruct (Z.gtb_spec (totalSize + (Z.of_nat (String.length chunk) + totalSizeOf rest))
                  MAX_BODY_SIZE); [reflexivity|lia].
    + rewrite IH by lia. rewrite <- app_assoc. cbn [app].
      by rewrite Z.add_assoc.
Qed.

(** X16. The body limit of the HTTP front. A POST to the served path
    whose chunks add up to more than 10 MB (10485760 bytes) is answered
    with 413 and never reaches the transport, however the bytes are
    split into chunks. When the transport is called with a parsed body,
    the request was a POST to the served path of at most that size, and
    the body is what JSON.parse makes of all its chunks put together. *)
Theorem http_body_limit J (jsonParse : string -> option J) transportThrows path req :
  let outcome := handleHttp J jsonParse transportThrows path req in
  let served := match url req with
                | Some u => String.prefix path u
                | None => false
                end in
  MAX_BODY_SIZE = 10485760%Z /\
  (served = true -> method req = "POST" ->
   (totalSizeOf (incoming req) > MAX_BODY_SIZE)%Z ->
   outcome = PayloadTooLarge) /\
  (forall parsed,
     outcome = Handled (Some parsed) \/ outcome = InternalError (Some parsed) ->
     served = true /\ method req = "POST" /\
     (totalSizeOf (incoming req) <= MAX_BODY_SIZE)%Z /\
     jsonParse (concatChunks (incoming req)) = Some parsed).
Proof.
  intros outcome served. subst outcome. split; [reflexivity|].
  unfold handleHttp. fold served. rewrite readChunks_spec by (unfold MAX_BODY_SIZE; lia).
  rewrite Z.add_0_l. cbn [app]. split.
  - intros -> -> Hbig. cbn [negb String.eqb Ascii.eqb Bool.eqb].
    destruct (Z.gtb_spec (totalSizeOf (incoming req)) MAX_BODY_SIZE); [reflexivity|lia].
  - intros parsed H. destruct served; cbn [negb] in H; [|by destruct H].
    destruct (String.eqb (method req) "POST") eqn:Hm.
    + apply String.eqb_eq in Hm.
      destruct (Z.gtb_spec (totalSizeOf (incoming req)) MAX_BODY_SIZE) as [Hsz|Hsz];
        [by destruct H|].
      destruct (truthy (concatChunks (incoming req))).
      * destruct (jsonParse (concatChunks (incoming req))) as [p|]; [|by destruct H].
        unfold forward in H. destruct (transportThrows (Some p));
          destruct H as [H|H]; try discriminate H; injection H as ->;
          repeat split; try assumption; try reflexivity; lia.
      * unfold forward in H. destruct (transportThrows None);
          destruct H as [H|H]; discriminate H.
    + unfold forward in H. destruct (transportThrows None);
        destruct H as [H|H]; discriminate H.
Qed.

Lemma http_body_limit_witness :
  handleHttp nat (fun raw => Some (String.length raw)) (fun _ => false) "/mcp"
    {| url := Some "/mcp"; method := "POST"; incoming := ["{}"; " "] |}
  = Handled (Some 3%nat) /\
  (totalSizeOf ["{}"; " "] <= MAX_BODY_SIZE)%Z.
Proof.
  split; [reflexivity|].
  refine (proj1 (proj2 (proj2 (proj2 (proj2
            (http_body_limit nat (fun raw => Some (String.length raw)) (fun _ => false) "/mcp"
               {| url := Some "/mcp"; method := "POST"; incoming := ["{}"; " "] |}))
            3%nat (or_introl eq_refl))))).
Defined.

(** ** The name of an auto-saved file *)

Lemma contains_slash_cons c s :
  contains "/" (String c s) = Ascii.eqb c "/" || contains "/" s.
Proof.
  cbn [contains String.prefix]. destruct (ascii_dec "/" c) as [<-|Hne].
  - by destruct s.
  - destruct (Ascii.eqb c "/") eqn:He; [|reflexivity].
    apply Ascii.eqb_eq in He. congruence.
Qed.

Lemma contains_slash_app a b :
  contains "/" (a +:+ b) = contains "/" a || contains "/" b.
Proof.
  induction a as [|c a IH]; [reflexivity|].
  rewrite append_cons, !contains_slash_cons, IH. by rewrite orb_assoc.
Qed.

Lemma splitOn_no_slash s : contains "/" s = false -> splitOn "/" s = [s].
Proof.
  induction s as [|c s IH]; intros H; [reflexivity|].
  rewrite contains_slash_cons in H. apply orb_false_elim in H as [Hc Hs].
  cbn [splitOn]. rewrite Hc, (IH Hs). reflexivity.
Qed.

Lemma splitOn_pieces_no_slash sep s piece :
  contains "/" s = false -> piece ∈ splitOn sep s -> contains "/" piece = false.
Proof.
  revert piece. induction s as [|c s IH]; intros piece H Hin.
  - cbn in Hin. by apply list_elem_of_singleton in Hin as ->.
  - rewrite contains_slash_cons in H. apply orb_false_elim in H as [Hc Hs].
    cbn [splitOn] in Hin. destruct (Ascii.eqb c sep).
    + apply elem_of_cons in Hin as [->|Hin]; [reflexivity|by apply IH].
    + destruct (splitOn sep s) as [|h t] eqn:Hsp.
      * apply list_elem_of_singleton in Hin as ->.
        by rewrite contains_slash_cons, Hc.
      * apply elem_of_cons in Hin as [->|Hin].
        -- rewrite contains_slash_cons, Hc. apply IH; [exact Hs|by left].
        -- apply IH; [exact Hs|by right].
Qed.

Lemma nth_no_slash i (l : list string) :
  (forall piece, piece ∈ l -> contains "/" piece = false) ->
  contains "/" (nth i l "") = false.
Proof.
  intros H. destruct (nth_in_or_default i l "") as [Hin| ->]; [|reflexivity].
  apply H. by apply list_elem_of_In.
Qed.

Lemma replaceChars_no_slash p s :
  contains "/" s = false -> contains "/" (replaceChars p "-" s) = false.
Proof.
  induction s as [|c s IH]; intros H; [reflexivity|].
  rewrite contains_slash_cons in H. apply orb_false_elim in H as [Hc Hs].
  cbn [replaceChars]. rewrite contains_slash_cons, (IH Hs).
  by destruct (p c); rewrite ?Hc.
Qed.

Lemma lastComponent_file dir file :
  truthy file = true -> contains "/" file = false ->
  Path.lastComponent (dir +:+ "/" +:+ file) = file.
Proof.
  intros Ht Hs. unfold Path.lastComponent, Path.segments.
  change (dir +:+ "/" +:+ file) with (dir +:+ String "/" file).
  rewrite splitOn_app, (splitOn_no_slash file Hs), List.filter_app. cbn [List.filter].
  rewrite Ht. apply List.last_last.
Qed.

Lemma lastDot_extension stem ext :
  Path.lastDot ext = None ->
  Path.lastDot (stem +:+ String "." ext) = Some (String.length stem).
Proof.
  intros He. induction stem as [|c stem IH].
  - change ("" +:+ String "." ext) with (String "." ext).
    cbn [Path.lastDot]. by rewrite He.
  - rewrite append_cons. cbn [Path.lastDot String.length]. by rewrite IH.
Qed.

Lemma substring_all s : String.substring 0 (String.length s) s = s.
Proof. induction s as [|c s IH]; [reflexivity|]. cbn. by rewrite IH. Qed.

Lemma substring_tail stem rest :
  String.substring (String.length stem)
    (String.length (stem +:+ rest) - String.length stem) (stem +:+ rest) = rest.
Proof.
  induction stem as [|c stem IH].
  - change ("" +:+ rest) with rest. cbn [String.length]. rewrite Nat.sub_0_r.
    apply substring_all.
  - rewrite append_cons. cbn [String.length String.substring Nat.sub]. exact IH.
Qed.

(** The extension of [stem.ext] when the stem has no separator and is
    not empty. *)
Lemma extname_file dir stem ext :
  truthy stem = true -> contains "/" stem = false ->
  truthy ext = true -> contains "/" ext = false -> Path.lastDot ext = None ->
  Path.extname (dir +:+ "/" +:+ (stem +:+ String "." ext)) = String "." ext.
Proof.
  intros Hstem Hs Hne He Hdot. unfold Path.extname.
  rewrite lastComponent_file.
  - rewrite lastDot_extension by exact Hdot.
    destruct stem as [|c stem]; [discriminate Hstem|]. cbn [String.length].
    destruct (String.eqb _ "..") eqn:Hdd.
    + apply String.eqb_eq in Hdd. apply (f_equal String.length) in Hdd.
      rewrite length_append in Hdd. destruct ext; [discriminate Hne|]. cbn in Hdd. lia.
    + change (S (String.length stem)) with (String.length (String c stem)).
      apply substring_tail.
  - destruct stem; [discriminate Hstem|reflexivity].
  - rewrite contains_slash_app, Hs, contains_slash_cons, He. reflexivity.
Qed.

(** X17. The name made up for an auto-saved file ends in .jpg for the
    MIME type image/jpeg and in .png for every other type, and since it
    has an extension, the save keeps the name as it is whatever the MIME
    type of the image: a WebP or GIF image is auto-saved under a .png
    name. (The tool names and the clock's ISO text contain no "/".) *)
Theorem auto_saved_name_extension cfg env tool mimeType :
  contains "/" tool = false ->
  contains "/" (isoNow env) = false ->
  let name := generateDefaultFileName cfg env tool mimeType in
  let ext := if String.eqb mimeType "image/jpeg" then ".jpg" else ".png" in
  Path.extname name = ext /\
  forall savedMime,
    extensionFor savedMime name = ext /\ basePathFor savedMime name = name.
Proof.
  intros Htool Hnow name ext.
  assert (Hext : Path.extname name = ext).
  { subst name ext. unfold generateDefaultFileName.
    set (timestamp := splitOn "T" _).
    assert (Hpieces : forall piece, piece ∈ timestamp -> contains "/" piece = false).
    { intros piece. apply splitOn_pieces_no_slash. by apply replaceChars_no_slash. }
    set (date := nth 0 timestamp "").
    set (time := nth 0 (splitOn "." (nth 1 timestamp "")) "").
    assert (Hdate : contains "/" date = false) by by apply nth_no_slash.
    assert (Htime : contains "/" time = false).
    { apply nth_no_slash. intros piece. apply splitOn_pieces_no_slash.
      by apply nth_no_slash. }
    set (dir := match DEFAULT_SAVE_DIR cfg with String "~" rest => _ | d => d end).
    set (e := if String.eqb mimeType "image/jpeg" then "jpg" else "png").
    replace (dir +:+ "/" +:+ tool +:+ "-" +:+ date +:+ "-" +:+ time +:+ "." +:+ e)
      with (dir +:+ "/" +:+ ((tool +:+ "-" +:+ date +:+ "-" +:+ time) +:+ String "." e)).
    2:{ by rewrite !append_assoc_s. }
    rewrite extname_file.
    - subst e. by destruct (String.eqb mimeType "image/jpeg").
    - unfold truthy. apply negb_true_iff, String.eqb_neq. intros H.
      apply (f_equal String.length) in H. rewrite !length_append in H. cbn in H. lia.
    - rewrite !contains_slash_app, Htool, Hdate, Htime. reflexivity.
    - subst e. by destruct (String.eqb mimeType "image/jpeg").
    - subst e. by destruct (String.eqb mimeType "image/jpeg").
    - subst e. by destruct (String.eqb mimeType "image/jpeg"). }
  split; [exact Hext|]. intros savedMime.
  unfold extensionFor, basePathFor. fold name. rewrite Hext.
  subst ext. by destruct (String.eqb mimeType "image/jpeg").
Qed.

Lemma auto_saved_name_extension_witness :
  extensionFor "image/webp"
    (generateDefaultFileName Sample.cfg Sample.immediate "generate" "image/webp") = ".png".
Proof.
  exact (proj1 (proj2 (auto_saved_name_extension Sample.cfg Sample.immediate "generate"
                         "image/webp" eq_refl eq_refl) "image/webp")).
Defined.

(** ** What each tool sends *)

Lemma maybeSaveImage_trace cfg base64 mimeType targetPath w :
  trace (maybeSaveImage cfg base64 mimeType targetPath w).2 = trace w.
Proof.
  unfold maybeSaveImage. destruct (truthyO targetPath); cbn [negb]; [|reflexivity].
  unfold tryCatch, bind, basenameChecked, throw, mkdir, resolveCollision, writeFile,
    setFs, ret.
  destruct (extensionIsString _ _); [|reflexivity].
  destruct (mkdirChain cfg _ _ (fs w)) as [[e|] m1]; [reflexivity|].
  cbn [fs wFs]. destruct (findFreePath cfg _ m1 _ _ _ _ 0) as [p|]; [|reflexivity].
  destruct (pathFault cfg p); [reflexivity|]. cbn [fs wFs].
  destruct (throughFile m1 p); [reflexivity|].
  destruct (negb (exists_ m1 (Path.dirname p))); [reflexivity|].
  destruct (lookupNode m1 p) as [[c|]|]; try reflexivity;
    (destruct (writeFault cfg p); [reflexivity|]);
    destruct (writeCut cfg p) as [[code n]|]; reflexivity.
Qed.

Lemma respond_trace cfg env wd saveToFilePath results w :
  trace (respond cfg env wd saveToFilePath results w).2 = trace w.
Proof.
  destruct results as [|first rest]; [reflexivity|].
  cbn [respond]. unfold bind.
  pose proof (maybeSaveImage_trace cfg (imageBase64 first) (imageMimeType first)
                (orElse saveToFilePath
                   (if AUTO_SAVE cfg
                    then Some (generateDefaultFileName cfg env (toolName wd)
                                 (imageMimeType first))
                    else None)) w) as H.
  destruct (maybeSaveImage _ _ _ _ w) as [[e|savedPath] w1]; exact H.
Qed.

(** The requests of a tool call whose inputs resolve. *)
Lemma tool_requests cfg env wd saveToFilePath request w :
  ~ credentialMissing cfg ->
  Forall (fun input => is_Some (resolvedData cfg (fs w) input))
         (nullish (images request) []) ->
  exists ds,
    trace (bind (callGeminiGenerate cfg env request)
                (respond cfg env wd saveToFilePath) w).2
    = trace w ++ traceOf (TextPart (prompt request)
                            :: List.map (inlinePartOf cfg (fs w))
                                 (nullish (images request) [])) ds.
Proof.
  intros Hkey Hall.
  assert (Hcall : exists ds,
            trace (callGeminiGenerate cfg env request w).2
            = trace w ++ traceOf (TextPart (prompt request)
                                    :: List.map (inlinePartOf cfg (fs w))
                                         (nullish (images request) [])) ds).
  { destruct (callGeminiGenerate_cases cfg env request w)
      as [[Hmiss _]|[(_ & e & He & _)|(_ & ps & Hps & Hrun)]].
    - contradiction.
    - exfalso. destruct (images request) as [[|input rest]|]; try discriminate He.
      cbn [nullish] in Hall. unfold toInlineDataParts in He.
      rewrite toInlineDataParts_loop_resolved in He by exact Hall. discriminate He.
    - assert (ps = List.map (inlinePartOf cfg (fs w)) (nullish (images request) [])) as ->.
      { destruct (images request) as [[|input rest]|]; try by injection Hps.
        cbn [nullish] in *. unfold toInlineDataParts in Hps.
        rewrite toInlineDataParts_loop_resolved in Hps by exact Hall.
        by injection Hps. }
      destruct (Runs_trace _ _ _ _ _ _ Hrun) as (ds & Ht & _). by exists ds. }
  destruct Hcall as [ds Hds]. exists ds. unfold bind.
  destruct (callGeminiGenerate cfg env request w) as [[e|results] w1]; [exact Hds|].
  pose proof (respond_trace cfg env wd saveToFilePath results w1) as Hr.
  destruct (respond cfg env wd saveToFilePath results w1) as [[e|items] w2];
    cbn in Hr |- *; by rewrite Hr.
Qed.

(** X18. What each tool sends. With the credential set and inputs that
    resolve, every request of a tool call carries the prompt first and
    then the tool's images in the order of its arguments: none for
    generate_image, the one image for edit_image, the list as given for
    compose_images, and the base image before the style image for
    style_transfer, whose prompt is the fixed default sentence exactly
    when no prompt is given (an empty prompt is sent as it is). *)
Theorem tools_send_prompt_then_images cfg env saveToFilePath w :
  ~ credentialMissing cfg ->
  let part := inlinePartOf cfg (fs w) in
  let resolves := fun input => is_Some (resolvedData cfg (fs w) input) in
  let sends := fun (h : Eff (list ContentItem)) body =>
                 exists ds, trace (h w).2 = trace w ++ traceOf body ds in
  (forall prompt,
     sends (generate_image cfg env prompt saveToFilePath) [TextPart prompt]) /\
  (forall prompt image,
     resolves image ->
     sends (edit_image cfg env prompt image saveToFilePath)
           [TextPart prompt; part image]) /\
  (forall prompt imgs,
     Forall resolves imgs ->
     sends (compose_images cfg env prompt imgs saveToFilePath)
           (TextPart prompt :: List.map part imgs)) /\
  (forall prompt baseImage styleImage,
     resolves baseImage -> resolves styleImage ->
     sends (style_transfer cfg env prompt baseImage styleImage saveToFilePath)
           [TextPart (nullish prompt
              "Apply the style of the second image to the first image while preserving the original content");
            part baseImage; part styleImage]).
Proof.
  intros Hkey part resolves sends. subst part resolves sends. cbv beta.
  split; [|split; [|split]].
  - intros prompt.
    destruct (tool_requests cfg env generateWording saveToFilePath
                {| prompt := prompt; images := None; saveToFilePath := saveToFilePath |}
                w Hkey) as [ds Hds]; [constructor|].
    exists ds. unfold generate_image, tryCatch, throw.
    destruct (bind _ _ w) as [[e|items] w1]; exact Hds.
  - intros prompt image Himg.
    apply (tool_requests cfg env editWording saveToFilePath
             {| prompt := prompt; images := Some [image]; saveToFilePath := None |}
             w Hkey).
    by repeat constructor.
  - intros prompt imgs Himgs.
    by apply (tool_requests cfg env composeWording saveToFilePath
                {| prompt := prompt; images := Some imgs; saveToFilePath := None |}
                w Hkey).
  - intros prompt baseImage styleImage Hb Hs.
    apply (tool_requests cfg env styleWording saveToFilePath
             {| prompt := nullish prompt
                  "Apply the style of the second image to the first image while preserving the original content";
                images := Some [baseImage; styleImage]; saveToFilePath := None |}
             w Hkey).
    by repeat constructor.
Qed.

Lemma tools_send_prompt_then_images_witness :
  exists ds,
    trace (style_transfer Sample.cfg Sample.immediate (Some "")
             {| dataBase64 := Some "AAAA"; path := None; inputMimeType := None |}
             {| dataBase64 := None; path := Some "in.png"; inputMimeType := None |}
             None Sample.worldWithFile).2
    = traceOf [TextPart ""; InlineDataPart "image/png" "AAAA";
               InlineDataPart "image/png" "SU1H"] ds.
Proof.
  assert (Hkey : ~ credentialMissing Sample.cfg).
  { intros [H|H]; discriminate H. }
  destruct (proj2 (proj2 (proj2 (tools_send_prompt_then_images Sample.cfg Sample.immediate
                                   None Sample.worldWithFile Hkey)))
              (Some "")
              {| dataBase64 := Some "AAAA"; path := None; inputMimeType := None |}
              {| dataBase64 := None; path := Some "in.png"; inputMimeType := None |})
    as [ds Hds].
  - vm_compute. by eexists.
  - vm_compute. by eexists.
  - exists ds. exact Hds.
Defined.
